(** * Verification model of the DeepBook expired-order clean-up bot

    The development follows the TypeScript source top to bottom: the BCS
    schema registry (lines 33-109), the RPC client, the pagination helpers,
    the batch resolver, the order-book reconstruction with its expiry
    filter, and the clean-up transaction builder with its rebate estimate.
    Every remote read is answered by a snapshot ledger (a record of pure
    functions), and every request the program issues is written to a call
    log, so that statements about "which requests are made" are statements
    about that log. *)

From Stdlib Require Import ZArith NArith String Ascii Bool Lia List.
From Stdlib Require Import Strings.Byte.
From Stdlib Require Import DecimalString DecimalPos DecimalN.
Import ListNotations.

Set Implicit Arguments.

Definition bytes := list byte.

(** ** BCS: the binary codec behind [bcs.de] *)

Module BCS.

(** Modelled from the spec: the codec of the [@mysten/bcs] package is not part
    of the source file; only the schema registrations (lines 34-109) are.  The
    wire format is the one the spec gives in sections 4.1 and 6: little-endian
    fixed-width unsigned integers, one-byte booleans, fixed 32-byte addresses,
    length-prefixed strings and sequences (the length prefix is ULEB128),
    records as the concatenation of their fields in declared order, generic
    records instantiated at each use.  A reader consumes a prefix of the
    buffer and hands back the rest; [None] is the buffer underrun. *)
Class Bcs (A : Type) : Type := {
  ser : A -> bytes;
  read : bytes -> option (A * bytes);
  in_range : A -> Prop
}.

(** [bcs.de(type, buffer)]: bytes left over after the value are ignored. *)
Definition de {A} `{Bcs A} (buf : bytes) : option A :=
  match read buf with
  | Some (v, _) => Some v
  | None => None
  end.

(** A codec is lawful when reading back what it wrote returns the value and
    leaves the bytes that followed it untouched. *)
Class Lawful {A} (c : Bcs A) : Prop :=
  roundtrip : forall (v : A) (rest : bytes),
    @in_range A c v -> @read A c (@ser A c v ++ rest) = Some (v, rest).

Definition byte_of_N (n : N) : byte :=
  match Byte.of_N (n mod 256) with
  | Some b => b
  | None => x00
  end.

(** [k] bytes of [n], least significant first. *)
Fixpoint le_bytes (k : nat) (n : N) : bytes :=
  match k with
  | O => []
  | S k' => byte_of_N (n mod 256) :: le_bytes k' (n / 256)
  end.

Fixpoint le_value (bs : bytes) : N :=
  match bs with
  | [] => 0
  | b :: bs' => Byte.to_N b + 256 * le_value bs'
  end.

Definition take_bytes (k : nat) (buf : bytes) : option (bytes * bytes) :=
  if Nat.leb k (List.length buf) then Some (firstn k buf, skipn k buf) else None.

Definition read_le (k : nat) (buf : bytes) : option (N * bytes) :=
  match take_bytes k buf with
  | Some (bs, rest) => Some (le_value bs, rest)
  | None => None
  end.

(** ULEB128 length prefix: seven bits per byte, high bit set on every byte
    but the last. *)
Fixpoint uleb_fuel (fuel : nat) (n : N) : bytes :=
  match fuel with
  | O => [byte_of_N (n mod 128)]
  | S f =>
      if (n <? 128)%N then [byte_of_N n]
      else byte_of_N (128 + n mod 128) :: uleb_fuel f (n / 128)
  end.

Definition uleb (n : N) : bytes := uleb_fuel (N.to_nat (N.size n)) n.

Fixpoint read_uleb (buf : bytes) : option (N * bytes) :=
  match buf with
  | [] => None
  | b :: buf' =>
      let v := Byte.to_N b in
      if (v <? 128)%N then Some (v, buf')
      else match read_uleb buf' with
           | Some (hi, rest) => Some (v - 128 + 128 * hi, rest)%N
           | None => None
           end
  end.

(** The primitive types of the Sui Move configuration. *)

Definition u8 := N.
Definition u64 := N.
Definition address := bytes.

#[export] Instance Bcs_u64 : Bcs N := {|
  ser := fun n : N => le_bytes 8 n;
  read := fun buf => read_le 8 buf;
  in_range := fun n : N => (n < 2 ^ 64)%N
|}.

(** [u8] shares its carrier with [u64]; the codec is chosen by name. *)
Definition Bcs_u8 : Bcs N := {|
  ser := fun n : N => le_bytes 1 n;
  read := fun buf => read_le 1 buf;
  in_range := fun n : N => (n < 2 ^ 8)%N
|}.

#[export] Instance Bcs_bool : Bcs bool := {|
  ser := fun b : bool => [if b then x01 else x00];
  read := fun buf : bytes =>
    match buf with
    | [] => None
    | b :: rest => Some (Byte.eqb b x01, rest)
    end;
  in_range := fun _ => True
|}.

(** An address is 32 raw bytes, without a length prefix. *)
Definition Bcs_address : Bcs bytes := {|
  ser := fun a : bytes => a;
  read := fun buf => take_bytes 32 buf;
  in_range := fun a : bytes => List.length a = 32
|}.

#[export] Instance Bcs_string : Bcs string := {|
  ser := fun s : string =>
    uleb (N.of_nat (String.length s)) ++ list_byte_of_string s;
  read := fun buf : bytes =>
    match read_uleb buf with
    | Some (len, rest) =>
        match take_bytes (N.to_nat len) rest with
        | Some (bs, rest') => Some (string_of_list_byte bs, rest')
        | None => None
        end
    | None => None
    end;
  in_range := fun _ => True
|}.

Section Vector.
Context {A : Type} (codec : Bcs A).

Fixpoint read_n (k : nat) (buf : bytes) : option (list A * bytes) :=
  match k with
  | O => Some ([], buf)
  | S k' =>
      match @read A codec buf with
      | Some (x, rest) =>
          match read_n k' rest with
          | Some (xs, rest') => Some (x :: xs, rest')
          | None => None
          end
      | None => None
      end
  end.

Definition Bcs_vector : Bcs (list A) := {|
  ser := fun l : list A =>
    uleb (N.of_nat (List.length l)) ++ concat (map (@ser A codec) l);
  read := fun buf : bytes =>
    match read_uleb buf with
    | Some (len, rest) => read_n (N.to_nat len) rest
    | None => None
    end;
  in_range := fun l : list A => Forall (@in_range A codec) l
|}.
End Vector.


(** Records are the concatenation of their fields in declared order.  A
    registered struct is described by the codec of its field tuple together
    with the two directions between the record and that tuple. *)

Definition Bcs_pair {A B} (cA : Bcs A) (cB : Bcs B) : Bcs (A * B) := {|
  ser := fun p : A * B => @ser A cA (fst p) ++ @ser B cB (snd p);
  read := fun buf : bytes =>
    match @read A cA buf with
    | Some (a, rest) =>
        match @read B cB rest with
        | Some (b, rest') => Some ((a, b), rest')
        | None => None
        end
    | None => None
    end;
  in_range := fun p : A * B => @in_range A cA (fst p) /\ @in_range B cB (snd p)
|}.

Definition Bcs_struct {T R} (fields : Bcs T) (unpack : R -> T) (pack : T -> R)
  : Bcs R := {|
  ser := fun r : R => @ser T fields (unpack r);
  read := fun buf : bytes =>
    match @read T fields buf with
    | Some (t, rest) => Some (pack t, rest)
    | None => None
    end;
  in_range := fun r : R => @in_range T fields (unpack r)
|}.

Declare Scope bcs_scope.
Delimit Scope bcs_scope with bcs.
Infix "**" := Bcs_pair (at level 41, right associativity) : bcs_scope.

(** *** The schema registry (source lines 34-109) *)

Module Order.
Record t := mk {
  order_id : u64;
  client_order_id : u64;
  price : u64;
  original_quantity : u64;
  quantity : u64;
  is_bid : bool;
  owner : address;
  expire_timestamp : u64;
  self_matching_prevention : u8
}.
End Order.

#[export] Instance Bcs_Order : Bcs Order.t :=
  Bcs_struct
    (Bcs_u64 ** Bcs_u64 ** Bcs_u64 ** Bcs_u64 ** Bcs_u64 ** Bcs_bool
       ** Bcs_address ** Bcs_u64 ** Bcs_u8)%bcs
    (fun o => (Order.order_id o, (Order.client_order_id o, (Order.price o,
       (Order.original_quantity o, (Order.quantity o, (Order.is_bid o,
       (Order.owner o, (Order.expire_timestamp o,
        Order.self_matching_prevention o)))))))))
    (fun '(a, (b, (c, (d, (e, (f, (g, (h, i)))))))) =>
       Order.mk a b c d e f g h i).

Module Table.
Record t := mk { id : address; size : u64 }.
End Table.

#[export] Instance Bcs_Table : Bcs Table.t :=
  Bcs_struct (Bcs_address ** Bcs_u64)%bcs
    (fun x => (Table.id x, Table.size x))
    (fun '(a, b) => Table.mk a b).

Module Field.
Record t (K V : Type) := mk { id : address; name : K; value : V }.
Arguments mk {K V}.
Arguments id {K V}.
Arguments name {K V}.
Arguments value {K V}.
End Field.

#[export] Instance Bcs_Field {K V} (cK : Bcs K) (cV : Bcs V) : Bcs (Field.t K V) :=
  Bcs_struct (Bcs_address ** cK ** cV)%bcs
    (fun x => (Field.id x, (Field.name x, Field.value x)))
    (fun '(a, (b, c)) => Field.mk a b c).

Module LinkedTable.
Record t := mk {
  id : address;
  size : u64;
  head : list u64;
  tail : list u64
}.
End LinkedTable.

#[export] Instance Bcs_LinkedTable : Bcs LinkedTable.t :=
  Bcs_struct
    (Bcs_address ** Bcs_u64 ** Bcs_vector Bcs_u64 ** Bcs_vector Bcs_u64)%bcs
    (fun x => (LinkedTable.id x, (LinkedTable.size x,
       (LinkedTable.head x, LinkedTable.tail x))))
    (fun '(a, (b, (c, d))) => LinkedTable.mk a b c d).

Module TickLevel.
Record t := mk { price : u64; open_orders : LinkedTable.t }.
End TickLevel.

#[export] Instance Bcs_TickLevel : Bcs TickLevel.t :=
  Bcs_struct (Bcs_u64 ** Bcs_LinkedTable)%bcs
    (fun x => (TickLevel.price x, TickLevel.open_orders x))
    (fun '(a, b) => TickLevel.mk a b).

Module Node.
Record t (V : Type) := mk { prev : list u64; next : list u64; value : V }.
Arguments mk {V}.
Arguments prev {V}.
Arguments next {V}.
Arguments value {V}.
End Node.

#[export] Instance Bcs_Node {V} (cV : Bcs V) : Bcs (Node.t V) :=
  Bcs_struct (Bcs_vector Bcs_u64 ** Bcs_vector Bcs_u64 ** cV)%bcs
    (fun x => (Node.prev x, (Node.next x, Node.value x)))
    (fun '(a, (b, c)) => Node.mk a b c).

Module Leaf.
Record t (V : Type) := mk { key : u64; value : V; parent : u64 }.
Arguments mk {V}.
Arguments key {V}.
Arguments value {V}.
Arguments parent {V}.
End Leaf.

#[export] Instance Bcs_Leaf {V} (cV : Bcs V) : Bcs (Leaf.t V) :=
  Bcs_struct (Bcs_u64 ** cV ** Bcs_u64)%bcs
    (fun x => (Leaf.key x, (Leaf.value x, Leaf.parent x)))
    (fun '(a, (b, c)) => Leaf.mk a b c).

Module CritbitTree.
Record t := mk {
  root : u64;
  internal_nodes : Table.t;
  leaves : Table.t;
  min_leaf : u64;
  max_leaf : u64;
  next_internal_node_index : u64;
  next_leaf_index : u64
}.
End CritbitTree.

#[export] Instance Bcs_CritbitTree : Bcs CritbitTree.t :=
  Bcs_struct
    (Bcs_u64 ** Bcs_Table ** Bcs_Table ** Bcs_u64 ** Bcs_u64 ** Bcs_u64
       ** Bcs_u64)%bcs
    (fun x => (CritbitTree.root x, (CritbitTree.internal_nodes x,
       (CritbitTree.leaves x, (CritbitTree.min_leaf x,
       (CritbitTree.max_leaf x, (CritbitTree.next_internal_node_index x,
        CritbitTree.next_leaf_index x)))))))
    (fun '(a, (b, (c, (d, (e, (f, g)))))) => CritbitTree.mk a b c d e f g).

Module Pool.
Record t := mk {
  id : address;
  bids : CritbitTree.t;
  asks : CritbitTree.t;
  next_bid_order_id : u64;
  next_ask_order_id : u64;
  usr_open_orders : Table.t;
  taker_fee_rate : u64;
  maker_rebate_rate : u64;
  tick_size : u64;
  lot_size : u64
}.
End Pool.

#[export] Instance Bcs_Pool : Bcs Pool.t :=
  Bcs_struct
    (Bcs_address ** Bcs_CritbitTree ** Bcs_CritbitTree ** Bcs_u64 ** Bcs_u64
       ** Bcs_Table ** Bcs_u64 ** Bcs_u64 ** Bcs_u64 ** Bcs_u64)%bcs
    (fun x => (Pool.id x, (Pool.bids x, (Pool.asks x,
       (Pool.next_bid_order_id x, (Pool.next_ask_order_id x,
       (Pool.usr_open_orders x, (Pool.taker_fee_rate x,
       (Pool.maker_rebate_rate x, (Pool.tick_size x, Pool.lot_size x))))))))))
    (fun '(a, (b, (c, (d, (e, (f, (g, (h, (i, j))))))))) =>
       Pool.mk a b c d e f g h i j).

Module PoolCreated.
Record t := mk {
  pool_id : address;
  base_asset : string;
  quote_asset : string
}.
End PoolCreated.

#[export] Instance Bcs_PoolCreated : Bcs PoolCreated.t :=
  Bcs_struct (Bcs_address ** Bcs_string ** Bcs_string)%bcs
    (fun x => (PoolCreated.pool_id x, (PoolCreated.base_asset x,
       PoolCreated.quote_asset x)))
    (fun '(a, (b, c)) => PoolCreated.mk a b c).

(** *** Type names

    The names a [bcs.de] call can be given: the primitive types, vectors, and
    the registered structs with their type arguments, as in
    ['Field<u64, Node<Order>>']. *)

Inductive type_name : Type :=
| T_u8
| T_u64
| T_bool
| T_address
| T_string
| T_vector (T : type_name)
| T_Order
| T_Table
| T_Field (K V : type_name)
| T_TickLevel
| T_LinkedTable
| T_Node (V : type_name)
| T_Leaf (V : type_name)
| T_CritbitTree
| T_Pool
| T_PoolCreated.

Fixpoint value_of (t : type_name) : Type :=
  match t with
  | T_u8 => u8
  | T_u64 => u64
  | T_bool => bool
  | T_address => address
  | T_string => string
  | T_vector T => list (value_of T)
  | T_Order => Order.t
  | T_Table => Table.t
  | T_Field K V => Field.t (value_of K) (value_of V)
  | T_TickLevel => TickLevel.t
  | T_LinkedTable => LinkedTable.t
  | T_Node V => Node.t (value_of V)
  | T_Leaf V => Leaf.t (value_of V)
  | T_CritbitTree => CritbitTree.t
  | T_Pool => Pool.t
  | T_PoolCreated => PoolCreated.t
  end.

Fixpoint codec (t : type_name) : Bcs (value_of t) :=
  match t with
  | T_u8 => Bcs_u8
  | T_u64 => Bcs_u64
  | T_bool => Bcs_bool
  | T_address => Bcs_address
  | T_string => Bcs_string
  | T_vector T => Bcs_vector (codec T)
  | T_Order => Bcs_Order
  | T_Table => Bcs_Table
  | T_Field K V => Bcs_Field (codec K) (codec V)
  | T_TickLevel => Bcs_TickLevel
  | T_LinkedTable => Bcs_LinkedTable
  | T_Node V => Bcs_Node (codec V)
  | T_Leaf V => Bcs_Leaf (codec V)
  | T_CritbitTree => Bcs_CritbitTree
  | T_Pool => Bcs_Pool
  | T_PoolCreated => Bcs_PoolCreated
  end.

End BCS.

(** ** JavaScript numbers

    [parseInt], [-] and [<=] work on IEEE-754 doubles.  Every quantity the
    program feeds them is an integer, so a finite number is represented by the
    integer it denotes and the rounding of the double format is written out.
    Magnitudes of [2^1024] and beyond (which overflow to [Infinity]) and the
    sign of zero are outside the model. *)

Module JS.

Local Open Scope Z_scope.

(** Nearest double of an integer: 53 significant bits, ties to the even
    significand.  Integers of magnitude at most [2^53] are doubles already. *)
Definition round_double (z : Z) : Z :=
  let a := Z.abs z in
  if a <=? 2 ^ 53 then z
  else
    let e := Z.log2 a - 52 in
    let q := a / 2 ^ e in
    let r := a mod 2 ^ e in
    let half := 2 ^ (e - 1) in
    let q' := if (half <? r) || ((half =? r) && Z.odd q) then q + 1 else q in
    Z.sgn z * (q' * 2 ^ e).

Inductive number : Type :=
| NaN
| Num (z : Z).

(** [a - b]: the exact difference, rounded once. *)
Definition sub (a b : number) : number :=
  match a, b with
  | Num x, Num y => Num (round_double (x - y))
  | _, _ => NaN
  end.

(** [a <= b]: false as soon as one side is [NaN]. *)
Definition le (a b : number) : bool :=
  match a, b with
  | Num x, Num y => x <=? y
  | _, _ => false
  end.

(** [ToNumber] of the canonical decimal string of a natural number: this is
    the conversion [<=] applies to a decoded [u64], which the decoder hands
    out as a decimal string. *)
Definition number_of_u64 (n : N) : number := Num (round_double (Z.of_N n)).

Definition is_space (c : ascii) : bool :=
  match N_of_ascii c with
  | 9%N | 10%N | 11%N | 12%N | 13%N | 32%N => true
  | _ => false
  end.

Fixpoint trim_start (s : string) : string :=
  match s with
  | EmptyString => s
  | String c s' => if is_space c then trim_start s' else s
  end.

Definition digit_value (radix : N) (c : ascii) : option N :=
  let n := N_of_ascii c in
  let d :=
    if ((48 <=? n) && (n <=? 57))%N then Some (n - 48)%N
    else if ((97 <=? n) && (n <=? 122))%N then Some (n - 87)%N
    else if ((65 <=? n) && (n <=? 90))%N then Some (n - 55)%N
    else None in
  match d with
  | Some v => if (v <? radix)%N then Some v else None
  | None => None
  end.

(** The digits of the longest prefix that is a numeral in [radix]. *)
Fixpoint parse_digits (radix : N) (s : string) (acc : N) : N :=
  match s with
  | EmptyString => acc
  | String c s' =>
      match digit_value radix c with
      | Some d => parse_digits radix s' (radix * acc + d)%N
      | None => acc
      end
  end.

Definition starts_with_digit (radix : N) (s : string) : bool :=
  match s with
  | EmptyString => false
  | String c _ =>
      match digit_value radix c with
      | Some _ => true
      | None => false
      end
  end.

(** [parseInt(s)] with no radix argument: leading white space, an optional
    sign, an optional [0x] prefix selecting base 16, then the longest run of
    digits; [NaN] when that run is empty. *)
Definition parseInt (s : string) : number :=
  let s1 := trim_start s in
  let '(sign, s2) :=
    match s1 with
    | String "-"%char r => (-1, r)
    | String "+"%char r => (1, r)
    | _ => (1, s1)
    end in
  let '(radix, s3) :=
    match s2 with
    | String "0"%char (String "x"%char r) => (16%N, r)
    | String "0"%char (String "X"%char r) => (16%N, r)
    | _ => (10%N, s2)
    end in
  if starts_with_digit radix s3
  then Num (round_double (sign * Z.of_N (parse_digits radix s3 0)))
  else NaN.

(** The canonical decimal text of a natural number. *)
Definition decimal (n : N) : string := NilEmpty.string_of_uint (N.to_uint n).

End JS.

(** ** Transaction blocks *)

Module Tx.

Definition ObjectId := BCS.address.

Inductive CallArg : Type :=
| Pure (b : bytes)
| Object (id : ObjectId).

Inductive TransactionArgument : Type :=
| Input (index : nat)
| Result (index : nat).

Inductive Transaction : Type :=
| MakeMoveVec (type : string) (objects : list TransactionArgument)
| MoveCall (target : string) (arguments : list TransactionArgument)
           (typeArguments : list string).

(** Modelled from the spec: the instruction batch of section 4.6.  The builder
    class [TransactionBlock] is imported, not defined, by the source file.  A
    block is the list of its inputs and the list of its commands; a builder
    call appends to one of them and returns a reference to what it appended.
    [tx.pure(v, type)] stores the BCS bytes of [v]; [tx.object(id)] reuses the
    input of an id that is already there. *)
Record TransactionBlock := mkBlock {
  inputs : list CallArg;
  transactions : list Transaction
}.

Definition empty : TransactionBlock := mkBlock [] [].

(** The builder is a state monad over the block under construction. *)
Definition Build (A : Type) : Type := TransactionBlock -> A * TransactionBlock.

Definition ret {A} (a : A) : Build A := fun tx => (a, tx).

Definition bind {A B} (m : Build A) (k : A -> Build B) : Build B :=
  fun tx => let '(a, tx') := m tx in k a tx'.

Fixpoint mapB {A B} (f : A -> Build B) (l : list A) : Build (list B) :=
  match l with
  | [] => ret []
  | x :: l' => bind (f x) (fun y => bind (mapB f l') (fun ys => ret (y :: ys)))
  end.

Definition add_input (arg : CallArg) : Build TransactionArgument :=
  fun tx =>
    (Input (List.length (inputs tx)),
     mkBlock (inputs tx ++ [arg]) (transactions tx)).

Definition add (t : Transaction) : Build TransactionArgument :=
  fun tx =>
    (Result (List.length (transactions tx)),
     mkBlock (inputs tx) (transactions tx ++ [t])).

Definition pure {A} (codec : BCS.Bcs A) (v : A) : Build TransactionArgument :=
  add_input (Pure (@BCS.ser A codec v)).

Definition bytes_eqb (a b : bytes) : bool :=
  if list_eq_dec Byte.byte_eq_dec a b then true else false.

Fixpoint find_object (id : ObjectId) (ins : list CallArg) (i : nat) : option nat :=
  match ins with
  | [] => None
  | Object id' :: ins' =>
      if bytes_eqb id id' then Some i else find_object id ins' (S i)
  | Pure _ :: ins' => find_object id ins' (S i)
  end.

Definition object (id : ObjectId) : Build TransactionArgument :=
  fun tx =>
    match find_object id (inputs tx) 0 with
    | Some i => (Input i, tx)
    | None => add_input (Object id) tx
    end.

Definition makeMoveVec (objects : list TransactionArgument) (type : string)
  : Build TransactionArgument :=
  add (MakeMoveVec type objects).

Definition moveCall (target : string) (arguments : list TransactionArgument)
  (typeArguments : list string) : Build TransactionArgument :=
  add (MoveCall target arguments typeArguments).

(** What a reference stands for once the block is complete: an input, or the
    vector a [MakeMoveVec] command builds from inputs. *)
Inductive InputValue : Type :=
| VPure (b : bytes)
| VObject (id : ObjectId)
| VDangling.

Inductive ArgValue : Type :=
| VInput (v : InputValue)
| VVec (type : string) (elements : list InputValue)
| VOther.

Definition input_value (tx : TransactionBlock) (a : TransactionArgument)
  : InputValue :=
  match a with
  | Input i =>
      match nth_error (inputs tx) i with
      | Some (Pure b) => VPure b
      | Some (Object id) => VObject id
      | None => VDangling
      end
  | Result _ => VDangling
  end.

Definition arg_value (tx : TransactionBlock) (a : TransactionArgument)
  : ArgValue :=
  match a with
  | Input _ => VInput (input_value tx a)
  | Result i =>
      match nth_error (transactions tx) i with
      | Some (MakeMoveVec type objects) =>
          VVec type (map (input_value tx) objects)
      | _ => VOther
      end
  end.

(** A move call with its references resolved. *)
Record Call := mkCall {
  call_target : string;
  call_arguments : list ArgValue;
  call_typeArguments : list string
}.

Fixpoint calls_of (tx : TransactionBlock) (ts : list Transaction) : list Call :=
  match ts with
  | [] => []
  | MoveCall target args tys :: ts' =>
      mkCall target (map (arg_value tx) args) tys :: calls_of tx ts'
  | MakeMoveVec _ _ :: ts' => calls_of tx ts'
  end.

Definition move_calls (tx : TransactionBlock) : list Call :=
  calls_of tx (transactions tx).

End Tx.

(** ** The remote ledger and the effects of the program *)

Module Rpc.

Definition ObjectId := Tx.ObjectId.

(** The JavaScript value of an [objectId] property: a string, or [undefined]
    (the source tests for it at line 260). *)
Definition JsId := option ObjectId.

Module Page.
Record t (C T : Type) := mk {
  data : list T;
  hasNextPage : bool;
  nextCursor : option C
}.
Arguments mk {C T}.
Arguments data {C T}.
Arguments hasNextPage {C T}.
Arguments nextCursor {C T}.
End Page.

Record EventId := mkEventId { txDigest : string; eventSeq : string }.

(** [event.bcs] is kept as the bytes [fromB58] yields, [bcsBytes] as the bytes
    [fromB64] yields: the text encodings are not modelled. *)
Module SuiEvent.
Record t := mk { bcs : bytes }.
End SuiEvent.

Inductive RawData : Type :=
| moveObject (bcsBytes : bytes)
| package.

Module SuiObjectData.
Record t := mk { bcs : option RawData }.
End SuiObjectData.

Inductive ObjectResponseError : Type :=
| notExists
| deleted
| unknown.

Module SuiObjectResponse.
Record t := mk {
  error : option ObjectResponseError;
  data : option SuiObjectData.t
}.
End SuiObjectResponse.

Module DynamicFieldInfo.
Record t := mk { objectId : JsId }.
End DynamicFieldInfo.

Module GasCostSummary.
Record t := mk {
  computationCost : string;
  storageCost : string;
  storageRebate : string
}.
End GasCostSummary.

Record TransactionEffects := mkEffects { gasUsed : GasCostSummary.t }.
Record DevInspectResults := mkResults { effects : TransactionEffects }.

(** Modelled from the spec: the read API of section 6.  The client is a
    snapshot of the ledger: each method answers as a function of its
    arguments, [multiGetObjects] gives one outcome per id, and no transport
    failure occurs. *)
Record SuiClient := mkClient {
  events_page : string -> option EventId -> Page.t EventId SuiEvent.t;
  object_response : JsId -> SuiObjectResponse.t;
  dynamic_fields_page :
    ObjectId -> option string -> Page.t string DynamicFieldInfo.t;
  dev_inspect : Tx.TransactionBlock -> string -> DevInspectResults
}.

(** Every request the program sends is recorded, in the order of sending. *)
Inductive request : Type :=
| QueryEvents (MoveEventType : string) (cursor : option EventId)
| GetObject (id : ObjectId)
| MultiGetObjects (ids : list JsId)
| GetDynamicFields (parentId : ObjectId) (cursor : option string)
| DevInspectTransactionBlock (tx : Tx.TransactionBlock) (sender : string).

Inductive exn : Type :=
| Error (message : string)
| TypeError
| RangeError.

(** How an evaluation ends: with a value, with an exception (a rejected
    promise), or not within the bound on page requests ([Pending]; a source
    no bound suffices for keeps the promise unsettled for ever). *)
Inductive outcome (A : Type) : Type :=
| Returns (a : A)
| Throws (e : exn)
| Pending.
Arguments Returns {A}.
Arguments Throws {A}.
Arguments Pending {A}.

(** An asynchronous computation: the requests it sends and how it ends. *)
Definition M (A : Type) : Type := (list request * outcome A)%type.

Definition ret {A} (a : A) : M A := ([], Returns a).

Definition lift {A} (o : outcome A) : M A := ([], o).

Definition throw {A} (e : exn) : M A := ([], Throws e).

Definition bind {A B} (m : M A) (k : A -> M B) : M B :=
  match m with
  | (log, Returns a) => let '(log', o) := k a in (log ++ log', o)
  | (log, Throws e) => (log, Throws e)
  | (log, Pending) => (log, Pending)
  end.

Definition requests {A} (m : M A) : list request := fst m.
Definition result {A} (m : M A) : outcome A := snd m.

Declare Scope rpc_scope.
Delimit Scope rpc_scope with rpc.
Notation "x <- m ;; k" := (bind m (fun x => k))
  (at level 61, m at next level, right associativity) : rpc_scope.

Local Open Scope rpc_scope.

(** [Promise.all(promises)]: every promise has been started, so the requests
    of all of them are sent; the requests are listed promise by promise, which
    is one of the orders in which they can reach the ledger.  The result is
    rejected when a promise is rejected (the first such promise of the list is
    taken), stays unsettled when none is rejected and one stays unsettled, and
    is the list of the values otherwise. *)
Fixpoint all {A} (promises : list (M A)) : M (list A) :=
  match promises with
  | [] => ret []
  | p :: promises' =>
      let rest := all promises' in
      (requests p ++ requests rest,
       match result p with
       | Returns a =>
           match result rest with
           | Returns l => Returns (a :: l)
           | Throws e => Throws e
           | Pending => Pending
           end
       | Throws e => Throws e
       | Pending =>
           match result rest with
           | Throws e => Throws e
           | _ => Pending
           end
       end)
  end.

(** [limit = pLimit(5)] (line 31): a task handed to the limiter starts once
    fewer than five of the tasks handed to it are running.  The limiter
    changes neither the requests of the task nor its result. *)
Definition limit {A} (task : M A) : M A := task.

(** [array.map(f)] for a callback that may throw. *)
Fixpoint map_outcome {A B} (f : A -> outcome B) (l : list A) : outcome (list B) :=
  match l with
  | [] => Returns []
  | x :: l' =>
      match f x with
      | Returns y =>
          match map_outcome f l' with
          | Returns ys => Returns (y :: ys)
          | Throws e => Throws e
          | Pending => Pending
          end
      | Throws e => Throws e
      | Pending => Pending
      end
  end.

(** [array.filter(x => x !== undefined)] *)
Fixpoint defined {A} (l : list (option A)) : list A :=
  match l with
  | [] => []
  | Some x :: l' => x :: defined l'
  | None :: l' => defined l'
  end.

(** [bcs.de(name, bytes)], with its failure as the exception the reader
    raises. *)
Definition bcs_de (name : BCS.type_name) (buf : bytes)
  : outcome (BCS.value_of name) :=
  match @BCS.de _ (BCS.codec name) buf with
  | Some v => Returns v
  | None => Throws RangeError
  end.

(** [data.slice(start, stop)] for [start <= stop] *)
Definition slice {A} (data : list A) (start stop : nat) : list A :=
  firstn (stop - start) (skipn start data).

(** Helper function to split an array into chunks (lines 296-300).  A zero
    [size] makes [new Array] reject its length. *)
Definition chunks {A} (data : list A) (size : nat) : outcome (list (list A)) :=
  match size with
  | O => Throws RangeError
  | S _ =>
      Returns (map (fun i => slice data (i * size) (i * size + size))
                 (seq 0 ((List.length data + size - 1) / size)))
  end.

Definition PoolCreated_type : string := "0xdee9::clob_v2::PoolCreated".

Definition sender : string :=
  "0x6c8adbafc9c7082c7b362d262aef7d1dc73589cb6bab27f235468cfa844f097f".

(** The shared clock object [0x6]. *)
Definition clock : ObjectId := repeat x00 31 ++ [x06].

(** [response.data?.bcs] *)
Definition payload (response : SuiObjectResponse.t) : option RawData :=
  match SuiObjectResponse.data response with
  | Some d => SuiObjectData.bcs d
  | None => None
  end.

(** The callback of [responses.map] (lines 157-171 and 273-288): [undefined]
    for an error marker and for a payload that is not a move object, the
    decoded value otherwise; reading [dataType] of a missing payload is a
    [TypeError]. *)
Definition resolve {T} (dec : bytes -> outcome T) (response : SuiObjectResponse.t)
  : outcome (option T) :=
  match SuiObjectResponse.error response with
  | None =>
      match payload response with
      | Some (moveObject bcsBytes) =>
          match dec bcsBytes with
          | Returns v => Returns (Some v)
          | Throws e => Throws e
          | Pending => Pending
          end
      | Some package => Returns None
      | None => Throws TypeError
      end
  | Some _ => Returns None
  end.

Definition resolve_tickLevel : SuiObjectResponse.t -> outcome (option BCS.TickLevel.t) :=
  resolve (fun bcsBytes =>
    match bcs_de (BCS.T_Field BCS.T_u64 (BCS.T_Leaf BCS.T_TickLevel)) bcsBytes with
    | Returns f => Returns (BCS.Leaf.value (BCS.Field.value f))
    | Throws e => Throws e
    | Pending => Pending
    end).

Definition resolve_order : SuiObjectResponse.t -> outcome (option BCS.Order.t) :=
  resolve (fun bcsBytes =>
    match bcs_de (BCS.T_Field BCS.T_u64 (BCS.T_Node BCS.T_Order)) bcsBytes with
    | Returns order => Returns (BCS.Node.value (BCS.Field.value order))
    | Throws e => Throws e
    | Pending => Pending
    end).

(** The expiry test of line 192; [now] is the reading of [Date.now()]. *)
Definition is_expired (now : Z) (order : BCS.Order.t) : bool :=
  JS.le (JS.number_of_u64 (BCS.Order.expire_timestamp order)) (JS.Num now).

Record PoolOrders := mkPoolOrders {
  pool : BCS.PoolCreated.t;
  expiredOrders : list BCS.Order.t
}.

Record CleanUp := mkCleanUp {
  rebate : JS.number;
  tx : Tx.TransactionBlock
}.

Definition clean_up_target : string := "0xdee9::clob_v2::clean_up_expired_orders".

(** The body of the loop of lines 208-232. *)
Definition add_clean_up (poolOrder : PoolOrders) : Tx.Build unit :=
  Tx.bind (Tx.mapB (fun order => Tx.pure BCS.Bcs_u64 (BCS.Order.order_id order))
             (expiredOrders poolOrder)) (fun orderIds =>
  Tx.bind (Tx.mapB (fun order => Tx.pure BCS.Bcs_address (BCS.Order.owner order))
             (expiredOrders poolOrder)) (fun orderOwners =>
  Tx.bind (Tx.makeMoveVec orderIds "u64") (fun orderIdVec =>
  Tx.bind (Tx.makeMoveVec orderOwners "address") (fun orderOwnerVec =>
  Tx.bind (Tx.object (BCS.PoolCreated.pool_id (pool poolOrder))) (fun poolArg =>
  Tx.bind (Tx.object clock) (fun clockArg =>
  Tx.bind (Tx.moveCall clean_up_target
             [poolArg; clockArg; orderIdVec; orderOwnerVec]
             [BCS.PoolCreated.base_asset (pool poolOrder);
              BCS.PoolCreated.quote_asset (pool poolOrder)]) (fun _ =>
  Tx.ret tt))))))).

Fixpoint add_clean_ups (poolOrders : list PoolOrders) : Tx.Build unit :=
  match poolOrders with
  | [] => Tx.ret tt
  | poolOrder :: rest =>
      Tx.bind (add_clean_up poolOrder) (fun _ => add_clean_ups rest)
  end.

(** net rebate of a cost summary (lines 238-242) *)
Definition rebate_of (costSummary : GasCostSummary.t) : JS.number :=
  JS.sub
    (JS.sub (JS.parseInt (GasCostSummary.storageRebate costSummary))
            (JS.parseInt (GasCostSummary.storageCost costSummary)))
    (JS.parseInt (GasCostSummary.computationCost costSummary)).

Section Program.

Variable client : SuiClient.

Definition queryEvents (type : string) (cursor : option EventId)
  : M (Page.t EventId SuiEvent.t) :=
  ([QueryEvents type cursor], Returns (events_page client type cursor)).

Definition getObject (id : ObjectId) : M SuiObjectResponse.t :=
  ([GetObject id], Returns (object_response client (Some id))).

Definition multiGetObjects (ids : list JsId) : M (list SuiObjectResponse.t) :=
  ([MultiGetObjects ids], Returns (map (object_response client) ids)).

Definition getDynamicFields (parentId : ObjectId) (cursor : option string)
  : M (Page.t string DynamicFieldInfo.t) :=
  ([GetDynamicFields parentId cursor],
   Returns (dynamic_fields_page client parentId cursor)).

Definition devInspectTransactionBlock (transactionBlock : Tx.TransactionBlock)
  (from : string) : M DevInspectResults :=
  ([DevInspectTransactionBlock transactionBlock from],
   Returns (dev_inspect client transactionBlock from)).

(** The page loop shared by [retrieveAllPools] (lines 117-129) and
    [getAllDFPages] (lines 249-259): [page] is the last response, [data] the
    items gathered so far, [fuel] the number of follow-up requests left. *)
Fixpoint next_pages {C T} (fetch : option C -> M (Page.t C T)) (fuel : nat)
  (page : Page.t C T) (data : list T) : M (list T) :=
  if Page.hasNextPage page then
    match fuel with
    | O => lift Pending
    | S fuel' =>
        page' <- fetch (Page.nextCursor page) ;;
        next_pages fetch fuel' page' (data ++ Page.data page')
    end
  else ret data.

Definition all_pages {C T} (fetch : option C -> M (Page.t C T)) (fuel : nat)
  : M (list T) :=
  page <- fetch None ;;
  next_pages fetch fuel page (Page.data page).

Definition retrieveAllPools (fuel : nat) : M (list BCS.PoolCreated.t) :=
  data <- all_pages (queryEvents PoolCreated_type) fuel ;;
  lift (map_outcome
          (fun event => bcs_de BCS.T_PoolCreated (SuiEvent.bcs event)) data).

Definition has_objectId (node : DynamicFieldInfo.t) : bool :=
  match DynamicFieldInfo.objectId node with
  | Some _ => true
  | None => false
  end.

(** Helper functions to retrieve all pages of dynamic fields *)
Definition getAllDFPages (fuel : nat) (parentId : ObjectId)
  : M (list DynamicFieldInfo.t) :=
  data <- all_pages (getDynamicFields parentId) fuel ;;
  ret (filter has_objectId data).

(** The loop over chunks of lines 152-174 and 265-291: one
    [multiGetObjects] call per chunk, the mapped responses pushed onto
    [result]. *)
Fixpoint resolve_chunks {T} (cb : SuiObjectResponse.t -> outcome (option T))
  (cs : list (list JsId)) (result : list (option T)) : M (list (option T)) :=
  match cs with
  | [] => ret result
  | chunk :: cs' =>
      responses <- multiGetObjects chunk ;;
      mapped <- lift (map_outcome cb responses) ;;
      resolve_chunks cb cs' (result ++ mapped)
  end.

Definition getOrders (ids : list JsId) : M (list BCS.Order.t) :=
  cs <- lift (chunks ids 50) ;;
  result <- resolve_chunks resolve_order cs [] ;;
  ret (defined result).

(** Lines 145-190: the work done for a pool whose payload is a move
    object, up to the list of its orders. *)
Definition reconstruct (fuel : nat) (bcsBytes : bytes) : M (list BCS.Order.t) :=
  pool <- lift (bcs_de BCS.T_Pool bcsBytes) ;;
  asks <- getAllDFPages fuel
            (BCS.Table.id (BCS.CritbitTree.leaves (BCS.Pool.asks pool))) ;;
  bids <- getAllDFPages fuel
            (BCS.Table.id (BCS.CritbitTree.leaves (BCS.Pool.bids pool))) ;;
  let ids := map DynamicFieldInfo.objectId (bids ++ asks) in
  cs <- lift (chunks ids 50) ;;
  tickLevels <- resolve_chunks resolve_tickLevel cs [] ;;
  let orderIdsPromises :=
    map (fun tickLevel =>
           limit (data <- getAllDFPages fuel
                            (BCS.LinkedTable.id (BCS.TickLevel.open_orders tickLevel)) ;;
                  ret (map DynamicFieldInfo.objectId data)))
        (defined tickLevels) in
  orderIdLists <- all orderIdsPromises ;;
  let orderIds := concat orderIdLists in
  getOrders orderIds.

(** [now] is the reading of [Date.now()]; the readings taken while the filter
    of line 191 runs over the orders are taken to be one and the same. *)
Definition retrieveExpiredOrders (fuel : nat) (now : Z) (poolId : ObjectId)
  : M (list BCS.Order.t) :=
  pool <- getObject poolId ;;
  match payload pool with
  | Some (moveObject bcsBytes) =>
      orders <- reconstruct fuel bcsBytes ;;
      let expiredOrders := filter (is_expired now) orders in
      ret expiredOrders
  | Some package => throw (Error "Invalid pool data type")
  | None => throw TypeError
  end.

Definition createCleanUpTransaction (poolOrders : list PoolOrders) : M CleanUp :=
  let tx := snd (add_clean_ups poolOrders Tx.empty) in
  result <- devInspectTransactionBlock tx sender ;;
  let costSummary := gasUsed (effects result) in
  ret (mkCleanUp (rebate_of costSummary) tx).

Definition main (fuel : nat) (now : Z) : M CleanUp :=
  allPools <- retrieveAllPools fuel ;;
  let allExpiredOrdersPromises :=
    map (fun pool =>
           expiredOrders <-
             retrieveExpiredOrders fuel now (BCS.PoolCreated.pool_id pool) ;;
           ret (mkPoolOrders pool expiredOrders))
        allPools in
  allExpiredOrders <- all allExpiredOrdersPromises ;;
  createCleanUpTransaction allExpiredOrders.

End Program.

End Rpc.

(** ** Vocabulary of the statements *)

Module Spec.
Import Rpc.

(** A finite paginated source: starting from cursor [c], the source answers
    with the pages [ps], each one but the last flagged as having a successor
    and followed by the answer to its own cursor. *)
Inductive serves {C T} (source : option C -> Page.t C T)
  : option C -> list (Page.t C T) -> Prop :=
| serves_last c :
    Page.hasNextPage (source c) = false ->
    serves source c [source c]
| serves_more c ps :
    Page.hasNextPage (source c) = true ->
    serves source (Page.nextCursor (source c)) ps ->
    serves source c (source c :: ps).

(** The cursors presented when the pages [ps] are fetched one after the
    other: none for the first request, then the cursor of the response
    before. *)
Definition cursors {C T} (ps : list (Page.t C T)) : list (option C) :=
  None :: map Page.nextCursor (removelast ps).

Definition items {C T} (ps : list (Page.t C T)) : list T :=
  concat (map Page.data ps).

(** What the lookup of one id contributes to [getOrders]: nothing for an
    error marker, nothing for a payload that is not a move object, the order
    inside the decoded queue node otherwise. *)
Inductive lookup (client : SuiClient) (id : JsId) : option BCS.Order.t -> Prop :=
| lookup_error e :
    SuiObjectResponse.error (object_response client id) = Some e ->
    lookup client id None
| lookup_package :
    SuiObjectResponse.error (object_response client id) = None ->
    payload (object_response client id) = Some package ->
    lookup client id None
| lookup_order bcsBytes node :
    SuiObjectResponse.error (object_response client id) = None ->
    payload (object_response client id) = Some (moveObject bcsBytes) ->
    @BCS.de _ (BCS.codec (BCS.T_Field BCS.T_u64 (BCS.T_Node BCS.T_Order))) bcsBytes
      = Some node ->
    lookup client id (Some (BCS.Node.value (BCS.Field.value node))).

(** The clean-up instruction of one (pool, expired orders) pair, with its
    arguments resolved. *)
Definition instruction (poolOrder : PoolOrders) : Tx.Call :=
  Tx.mkCall clean_up_target
    [Tx.VInput (Tx.VObject (BCS.PoolCreated.pool_id (pool poolOrder)));
     Tx.VInput (Tx.VObject clock);
     Tx.VVec "u64"
       (map (fun order =>
               Tx.VPure (@BCS.ser _ BCS.Bcs_u64 (BCS.Order.order_id order)))
            (expiredOrders poolOrder));
     Tx.VVec "address"
       (map (fun order => Tx.VPure (BCS.Order.owner order))
            (expiredOrders poolOrder))]
    [BCS.PoolCreated.base_asset (pool poolOrder);
     BCS.PoolCreated.quote_asset (pool poolOrder)].

Definition has_expired (poolOrder : PoolOrders) : bool :=
  match expiredOrders poolOrder with
  | [] => false
  | _ :: _ => true
  end.

(** The sizes of the chunks of [n] items cut every [size] items. *)
Definition chunk_sizes (n size : nat) : list nat :=
  repeat size (n / size) ++
  (if Nat.eqb (n mod size) 0 then [] else [n mod size]).

(** [tx'] has everything [tx] has, at the same positions. *)
Definition extends (tx tx' : Tx.TransactionBlock) : Prop :=
  (exists ins, Tx.inputs tx' = Tx.inputs tx ++ ins) /\
  (exists ts, Tx.transactions tx' = Tx.transactions tx ++ ts).

(** The exceptions the runtime and the decoder raise, as opposed to the
    program's own [Error]. *)
Definition builtin (e : exn) : Prop := e = TypeError \/ e = RangeError.

(** A request whose ids, if it is a multi-id lookup, are all defined. *)
Definition ids_defined (r : request) : Prop :=
  match r with
  | MultiGetObjects ids => Forall (fun id : JsId => id <> None) ids
  | _ => True
  end.

(** Cutting [k] chunks off the front of a list, one after the other. *)
Fixpoint chop {A} (k size : nat) (data : list A) : list (list A) :=
  match k with
  | O => []
  | S k' => firstn size data :: chop k' size (skipn size data)
  end.

End Spec.

(** ** A small ledger

    One pool with two price levels.  The level on the bid side queues two
    orders, expiring one millisecond before and one second after the reading
    of the clock; the level on the ask side queues one order that expired five
    milliseconds before it.  The bid queue is listed in two pages. *)

Module Stub.
Import Rpc.
Local Open Scope N_scope.

Definition oid (n : N) : ObjectId := repeat x00 31 ++ [BCS.byte_of_N n].

Definition now : Z := 1700000000000%Z.

Definition pool_id := oid 1.
Definition bid_leaves := oid 2.
Definition ask_leaves := oid 3.
Definition bid_leaf := oid 10.
Definition ask_leaf := oid 11.
Definition bid_queue := oid 20.
Definition ask_queue := oid 21.
Definition node1 := oid 30.
Definition node2 := oid 31.
Definition node3 := oid 32.
Definition alice := oid 100.
Definition bob := oid 101.

Definition order1 : BCS.Order.t :=
  BCS.Order.mk 1 11 500 5 5 true alice 1699999999999 0.
Definition order2 : BCS.Order.t :=
  BCS.Order.mk 2 12 500 3 3 true bob 1700000001000 0.
Definition order3 : BCS.Order.t :=
  BCS.Order.mk 3 13 510 1 1 false bob 1699999999995 0.

Definition table (id : ObjectId) (size : N) : BCS.Table.t := BCS.Table.mk id size.

Definition tree (leaves : ObjectId) : BCS.CritbitTree.t :=
  BCS.CritbitTree.mk 0 (table (oid 4) 0) (table leaves 1) 0 0 0 1.

Definition the_pool : BCS.Pool.t :=
  BCS.Pool.mk pool_id (tree bid_leaves) (tree ask_leaves) 3 2
    (table (oid 5) 2) 2500000 1500000 100 1000.

Definition level (price : N) (queue : ObjectId) (size : N) : BCS.TickLevel.t :=
  BCS.TickLevel.mk price (BCS.LinkedTable.mk queue size [1] [size]).

Definition leaf_codec := BCS.codec (BCS.T_Field BCS.T_u64 (BCS.T_Leaf BCS.T_TickLevel)).
Definition node_codec := BCS.codec (BCS.T_Field BCS.T_u64 (BCS.T_Node BCS.T_Order)).

Definition leaf_bytes (id : ObjectId) (l : BCS.TickLevel.t) : bytes :=
  @BCS.ser _ leaf_codec
    (BCS.Field.mk id 0 (BCS.Leaf.mk (BCS.TickLevel.price l) l 0)).

Definition node_bytes (id : ObjectId) (o : BCS.Order.t) : bytes :=
  @BCS.ser _ node_codec
    (BCS.Field.mk id (BCS.Order.order_id o) (BCS.Node.mk [] [] o)).

Definition live (bcsBytes : bytes) : SuiObjectResponse.t :=
  SuiObjectResponse.mk None
    (Some (SuiObjectData.mk (Some (moveObject bcsBytes)))).

Definition gone : SuiObjectResponse.t :=
  SuiObjectResponse.mk (Some notExists) None.

Fixpoint assoc {V} (default : V) (table : list (ObjectId * V)) (id : ObjectId) : V :=
  match table with
  | [] => default
  | (k, v) :: table' => if Tx.bytes_eqb id k then v else assoc default table' id
  end.

Definition objects : list (ObjectId * SuiObjectResponse.t) :=
  [(pool_id, live (@BCS.ser _ (BCS.codec BCS.T_Pool) the_pool));
   (bid_leaf, live (leaf_bytes bid_leaf (level 500 bid_queue 2)));
   (ask_leaf, live (leaf_bytes ask_leaf (level 510 ask_queue 1)));
   (node1, live (node_bytes node1 order1));
   (node2, live (node_bytes node2 order2));
   (node3, live (node_bytes node3 order3))].

Definition entry (id : ObjectId) : DynamicFieldInfo.t :=
  DynamicFieldInfo.mk (Some id).

Definition last_page {C T} (data : list T) : Page.t C T :=
  Page.mk data false None.

Definition fields (parentId : ObjectId) (cursor : option string)
  : Page.t string DynamicFieldInfo.t :=
  match cursor with
  | None =>
      assoc (last_page [])
        [(bid_leaves, last_page [entry bid_leaf]);
         (ask_leaves, last_page [entry ask_leaf]);
         (bid_queue, Page.mk [entry node1] true (Some "1"%string));
         (ask_queue, last_page [entry node3])]
        parentId
  | Some _ =>
      assoc (last_page []) [(bid_queue, last_page [entry node2])] parentId
  end.

Definition created : BCS.PoolCreated.t :=
  BCS.PoolCreated.mk pool_id "0x2::sui::SUI" "0x5d4b::coin::COIN".

Definition gas (storageRebate storageCost computationCost : N)
  : DevInspectResults :=
  mkResults (mkEffects
    (GasCostSummary.mk (JS.decimal computationCost) (JS.decimal storageCost)
       (JS.decimal storageRebate))).

Definition client : SuiClient :=
  mkClient
    (fun _ _ =>
       last_page [SuiEvent.mk (@BCS.ser _ (BCS.codec BCS.T_PoolCreated) created)])
    (fun id =>
       match id with
       | Some id => assoc gone objects id
       | None => gone
       end)
    fields
    (fun _ _ => gas 300 100 50).

(** A listing served in four pages of three, five, no and two entries. *)
Definition four_pages (cursor : option string)
  : Page.t string DynamicFieldInfo.t :=
  match cursor with
  | None => Page.mk (map entry [oid 1; oid 2; oid 3]) true (Some "a"%string)
  | Some "a"%string =>
      Page.mk (map entry [oid 4; oid 5; oid 6; oid 7; oid 8]) true
        (Some "b"%string)
  | Some "b"%string => Page.mk [] true (Some "c"%string)
  | Some _ => last_page (map entry [oid 9; oid 10])
  end.

Definition paged_client : SuiClient :=
  mkClient (fun _ _ => last_page []) (fun _ => gone) (fun _ => four_pages)
    (fun _ _ => gas 0 0 0).

(** A listing with one entry that has no object id. *)
Definition holey_client : SuiClient :=
  mkClient (fun _ _ => last_page []) (fun _ => gone)
    (fun _ _ => last_page [entry node1; DynamicFieldInfo.mk None; entry node2])
    (fun _ _ => gas 0 0 0).

(** A dry run that reports a storage rebate of [2^53 + 1]. *)
Definition rounding_client : SuiClient :=
  mkClient (fun _ _ => last_page []) (fun _ => gone) (fun _ _ => last_page [])
    (fun _ _ => gas 9007199254740993 0 0).

(** A pool none of whose orders has expired. *)
Definition quiet_pool : PoolOrders := mkPoolOrders created [].

(** One hundred and thirty ids, of which only [node1] and [node3] are on the
    ledger. *)
Definition many_ids : list JsId :=
  Some node1 :: map (fun n => Some (oid (N.of_nat n))) (seq 101 128)%nat ++ [Some node3].

End Stub.

(** ** Further vocabulary *)

Module BCSMore.
Import BCS.

(** What a reader hands out is in range, and what it leaves is the buffer
    less a prefix. *)
Class Sound {A} (c : Bcs A) : Prop :=
  sound : forall (buf : bytes) (v : A) (rest : bytes),
    @read A c buf = Some (v, rest) ->
    @in_range A c v /\ exists used, buf = used ++ rest.

(** A codec of fixed width [n] reads exactly [n] bytes, and fails exactly on
    the buffers that are shorter. *)
Class Fixed {A} (c : Bcs A) (n : nat) : Prop :=
  fixed : forall buf : bytes,
    match @read A c buf with
    | Some (_, rest) => n + List.length rest = List.length buf
    | None => List.length buf < n
    end.

End BCSMore.

Module SpecMore.
Import Rpc.

(** What the lookup of one leaf id contributes to the reconstruction: nothing
    for an error marker, nothing for a payload that is not a move object, the
    tick level inside the decoded leaf otherwise. *)
Inductive leaf_lookup (client : SuiClient) (id : JsId)
  : option BCS.TickLevel.t -> Prop :=
| leaf_error e :
    SuiObjectResponse.error (object_response client id) = Some e ->
    leaf_lookup client id None
| leaf_package :
    SuiObjectResponse.error (object_response client id) = None ->
    payload (object_response client id) = Some package ->
    leaf_lookup client id None
| leaf_level bcsBytes leaf :
    SuiObjectResponse.error (object_response client id) = None ->
    payload (object_response client id) = Some (moveObject bcsBytes) ->
    @BCS.de _ (BCS.codec (BCS.T_Field BCS.T_u64 (BCS.T_Leaf BCS.T_TickLevel)))
      bcsBytes = Some leaf ->
    leaf_lookup client id (Some (BCS.Leaf.value (BCS.Field.value leaf))).

(** A request that reads the ledger, as opposed to the dry run. *)
Definition is_read (r : request) : Prop :=
  match r with
  | DevInspectTransactionBlock _ _ => False
  | _ => True
  end.

(** The leaf listings of the two sides of a pool. *)
Definition ask_leaves (p : BCS.Pool.t) : ObjectId :=
  BCS.Table.id (BCS.CritbitTree.leaves (BCS.Pool.asks p)).

Definition bid_leaves (p : BCS.Pool.t) : ObjectId :=
  BCS.Table.id (BCS.CritbitTree.leaves (BCS.Pool.bids p)).

Definition queue_of (level : BCS.TickLevel.t) : ObjectId :=
  BCS.LinkedTable.id (BCS.TickLevel.open_orders level).

(** The run of [main] (lines 306-323), cut before the batch is built. *)
Definition gather (client : SuiClient) (fuel : nat) (now : Z)
  : M (list PoolOrders) :=
  bind (retrieveAllPools client fuel) (fun allPools =>
  all (map (fun pool =>
              bind (retrieveExpiredOrders client fuel now
                      (BCS.PoolCreated.pool_id pool))
                   (fun expiredOrders => ret (mkPoolOrders pool expiredOrders)))
           allPools)).

Definition is_pure (arg : Tx.CallArg) : bool :=
  match arg with
  | Tx.Pure _ => true
  | Tx.Object _ => false
  end.

Definition is_move_call (t : Tx.Transaction) : bool :=
  match t with
  | Tx.MoveCall _ _ _ => true
  | Tx.MakeMoveVec _ _ => false
  end.

Definition order_count (poolOrders : list PoolOrders) : nat :=
  List.length (concat (map expiredOrders poolOrders)).

End SpecMore.

(** ** More of the small ledger *)

Module StubMore.
Import Rpc Stub.
Local Open Scope N_scope.

(** A second pool, with no price level on either side; a package where a
    pool is expected; a queue node cut short. *)
Definition bare_pool_id := oid 6.
Definition package_id := oid 9.
Definition cut_node := oid 33.

Definition bare_pool : BCS.Pool.t :=
  BCS.Pool.mk bare_pool_id (tree (oid 7)) (tree (oid 8)) 0 0
    (table (oid 5) 0) 2500000 1500000 100 1000.

Definition a_package : SuiObjectResponse.t :=
  SuiObjectResponse.mk None (Some (SuiObjectData.mk (Some package))).

Definition more_objects : list (ObjectId * SuiObjectResponse.t) :=
  (bare_pool_id, live (@BCS.ser _ (BCS.codec BCS.T_Pool) bare_pool))
  :: (package_id, a_package)
  :: (cut_node, live (firstn 10 (node_bytes cut_node order2)))
  :: objects.

Definition packaged : BCS.PoolCreated.t :=
  BCS.PoolCreated.mk package_id "0x2::sui::SUI" "0xa::usdc::USDC".

(** The creation events carry fields after the three that are registered. *)
Definition event_of (created : BCS.PoolCreated.t) (more : bytes) : SuiEvent.t :=
  SuiEvent.mk (@BCS.ser _ (BCS.codec BCS.T_PoolCreated) created ++ more).

Definition client : SuiClient :=
  mkClient
    (fun _ _ =>
       last_page [event_of created [x01; x02; x03];
                  event_of packaged (BCS.le_bytes 8 2500000)])
    (fun id =>
       match id with
       | Some id => assoc gone more_objects id
       | None => gone
       end)
    fields
    (fun _ _ => gas 300 100 50).

(** A listing whose only page is flagged as having a successor and carries
    no cursor. *)
Definition stuck_client : SuiClient :=
  mkClient (fun _ _ => last_page []) (fun _ => gone)
    (fun _ _ => Page.mk [entry node1] true None)
    (fun _ _ => gas 0 0 0).

End StubMore.

(** * Properties *)

(** ** BCS round trip *)

(** Division and remainder by constants are handed to [lia] as their
    Euclidean equations. *)
Ltac Zify.zify_post_hook ::= Z.to_euclidean_division_equations.

Module BCSFacts.
Import BCS.

Lemma byte_of_N_to_N (n : N) : (n < 256)%N -> Byte.to_N (byte_of_N n) = n.
Proof.
  intros Hn. unfold byte_of_N. rewrite N.mod_small by exact Hn.
  destruct (Byte.of_N n) as [b|] eqn:E.
  - apply Byte.to_of_N. exact E.
  - apply Byte.of_N_None_iff in E. lia.
Qed.

Lemma le_bytes_length (k : nat) (n : N) : List.length (le_bytes k n) = k.
Proof.
  revert n. induction k as [|k IH]; intros n; simpl; [reflexivity|].
  now rewrite IH.
Qed.

Lemma le_value_le_bytes (k : nat) (n : N) :
  (n < 256 ^ N.of_nat k)%N -> le_value (le_bytes k n) = n.
Proof.
  revert n. induction k as [|k IH]; intros n Hn.
  - simpl in *. lia.
  - cbn [le_bytes le_value].
    rewrite byte_of_N_to_N by (apply N.mod_lt; lia).
    rewrite IH.
    + rewrite (N.div_mod n 256) at 3 by lia. lia.
    + rewrite Nat2N.inj_succ, N.pow_succ_r' in Hn.
      apply N.Div0.div_lt_upper_bound. lia.
Qed.

Lemma take_bytes_app (k : nat) (a rest : bytes) :
  List.length a = k -> take_bytes k (a ++ rest) = Some (a, rest).
Proof.
  intros <-. unfold take_bytes.
  rewrite length_app.
  destruct (Nat.leb_spec (List.length a) (List.length a + List.length rest)); [|exfalso; lia].
  rewrite firstn_app, Nat.sub_diag, firstn_all, firstn_O, app_nil_r.
  rewrite skipn_app, Nat.sub_diag, skipn_all. reflexivity.
Qed.

Lemma read_le_le_bytes (k : nat) (n : N) (rest : bytes) :
  (n < 256 ^ N.of_nat k)%N -> read_le k (le_bytes k n ++ rest) = Some (n, rest).
Proof.
  intros Hn. unfold read_le.
  rewrite take_bytes_app by apply le_bytes_length.
  now rewrite le_value_le_bytes.
Qed.

Lemma read_uleb_fuel (fuel : nat) : forall (n : N) (rest : bytes),
  (N.size n <= N.of_nat fuel)%N ->
  read_uleb (uleb_fuel fuel n ++ rest) = Some (n, rest).
Proof.
  induction fuel as [|fuel IH]; intros n rest Hsz.
  - assert (n = 0%N) as ->.
    { destruct n as [|p]; [reflexivity|]. simpl in Hsz. lia. }
    reflexivity.
  - cbn [uleb_fuel]. destruct (N.ltb_spec n 128) as [Hlt|Hge].
    + cbn [app read_uleb]. rewrite byte_of_N_to_N by lia.
      destruct (N.ltb_spec n 128); [reflexivity|exfalso; lia].
    + cbn [app read_uleb].
      assert (Hm : (n mod 128 < 128)%N) by (apply N.mod_lt; lia).
      rewrite byte_of_N_to_N by lia.
      destruct (N.ltb_spec (128 + n mod 128) 128); [exfalso; lia|].
      rewrite IH.
      * f_equal. f_equal. rewrite (N.div_mod n 128) at 3 by lia. lia.
      * assert (Hn0 : n <> 0%N) by lia.
        assert (Hd : (n / 128 = 0 \/ 0 < n / 128)%N) by lia.
        destruct Hd as [Hd|Hd]; [rewrite Hd; simpl; lia|].
        rewrite N.size_log2 in * by lia.
        assert (N.log2 (n / 128) < N.log2 n)%N; [|lia].
        change 128%N with (2 ^ 7)%N. rewrite <- N.shiftr_div_pow2.
        rewrite N.log2_shiftr.
        assert (7 <= N.log2 n)%N.
        { change 7%N with (N.log2 128). apply N.log2_le_mono. lia. }
        lia.
Qed.

Lemma read_uleb_uleb (n : N) (rest : bytes) :
  read_uleb (uleb n ++ rest) = Some (n, rest).
Proof. apply read_uleb_fuel. lia. Qed.

#[export] Instance Lawful_u64 : Lawful Bcs_u64.
Proof. intros v rest Hv. apply read_le_le_bytes. exact Hv. Qed.

#[export] Instance Lawful_u8 : Lawful Bcs_u8.
Proof. intros v rest Hv. apply read_le_le_bytes. exact Hv. Qed.

#[export] Instance Lawful_bool : Lawful Bcs_bool.
Proof. intros [|] rest _; reflexivity. Qed.

#[export] Instance Lawful_address : Lawful Bcs_address.
Proof. intros v rest Hv. apply take_bytes_app. exact Hv. Qed.

Lemma length_list_byte_of_string (s : string) :
  List.length (list_byte_of_string s) = String.length s.
Proof.
  induction s as [|c s IH]; [reflexivity|].
  cbn. f_equal. exact IH.
Qed.

#[export] Instance Lawful_string : Lawful Bcs_string.
Proof.
  intros s rest _. cbn [read ser Bcs_string].
  rewrite <- app_assoc, read_uleb_uleb, Nat2N.id.
  rewrite take_bytes_app by apply length_list_byte_of_string.
  now rewrite string_of_list_byte_of_string.
Qed.

Lemma read_n_concat {A} (c : Bcs A) (HL : Lawful c) (l : list A) (rest : bytes) :
  Forall (@in_range A c) l ->
  read_n c (List.length l) (concat (map (@ser A c) l) ++ rest) = Some (l, rest).
Proof.
  induction 1 as [|x l Hx Hl IH]; [reflexivity|].
  cbn [List.length map concat read_n].
  rewrite <- app_assoc, (HL x _ Hx), IH. reflexivity.
Qed.

#[export] Instance Lawful_vector {A} (c : Bcs A) (HL : Lawful c) :
  Lawful (Bcs_vector c).
Proof.
  intros l rest Hl. cbn [read ser Bcs_vector].
  rewrite <- app_assoc, read_uleb_uleb, Nat2N.id.
  apply read_n_concat; assumption.
Qed.

#[export] Instance Lawful_pair {A B} (cA : Bcs A) (cB : Bcs B)
  (HA : Lawful cA) (HB : Lawful cB) : Lawful (Bcs_pair cA cB).
Proof.
  intros [a b] rest [Ha Hb]. cbn [read ser Bcs_pair fst snd] in *.
  rewrite <- app_assoc, (HA a _ Ha), (HB b _ Hb). reflexivity.
Qed.

Lemma Lawful_struct {T R} (fields : Bcs T) (unpack : R -> T) (pack : T -> R) :
  Lawful fields -> (forall r, pack (unpack r) = r) ->
  Lawful (Bcs_struct fields unpack pack).
Proof.
  intros HF Hpack r rest Hr. cbn [read ser Bcs_struct in_range] in *.
  rewrite (HF _ _ Hr), Hpack. reflexivity.
Qed.

Ltac lawful_struct :=
  apply Lawful_struct; [typeclasses eauto | intros []; reflexivity].

#[export] Instance Lawful_Order : Lawful Bcs_Order.
Proof. lawful_struct. Qed.
#[export] Instance Lawful_Table : Lawful Bcs_Table.
Proof. lawful_struct. Qed.
#[export] Instance Lawful_Field {K V} (cK : Bcs K) (cV : Bcs V)
  (HK : Lawful cK) (HV : Lawful cV) : Lawful (Bcs_Field cK cV).
Proof. lawful_struct. Qed.
#[export] Instance Lawful_LinkedTable : Lawful Bcs_LinkedTable.
Proof. lawful_struct. Qed.
#[export] Instance Lawful_TickLevel : Lawful Bcs_TickLevel.
Proof. lawful_struct. Qed.
#[export] Instance Lawful_Node {V} (cV : Bcs V) (HV : Lawful cV) :
  Lawful (Bcs_Node cV).
Proof. lawful_struct. Qed.
#[export] Instance Lawful_Leaf {V} (cV : Bcs V) (HV : Lawful cV) :
  Lawful (Bcs_Leaf cV).
Proof. lawful_struct. Qed.
#[export] Instance Lawful_CritbitTree : Lawful Bcs_CritbitTree.
Proof. lawful_struct. Qed.
#[export] Instance Lawful_Pool : Lawful Bcs_Pool.
Proof. lawful_struct. Qed.
#[export] Instance Lawful_PoolCreated : Lawful Bcs_PoolCreated.
Proof. lawful_struct. Qed.

Lemma Lawful_codec (t : type_name) : Lawful (codec t).
Proof. induction t; cbn [codec]; typeclasses eauto. Qed.

Lemma de_ser {A} (c : Bcs A) (HL : Lawful c) (v : A) :
  @in_range A c v -> @de A c (@ser A c v) = Some v.
Proof.
  intros Hv. unfold de. rewrite <- (app_nil_r (ser v)), (HL v [] Hv).
  reflexivity.
Qed.

End BCSFacts.

(** ** The monad of requests *)

Module RpcFacts.
Import Rpc.
Local Open Scope rpc_scope.

Lemma requests_bind {A B} (m : M A) (k : A -> M B) :
  requests (bind m k) =
  requests m ++ match result m with
                | Returns a => requests (k a)
                | _ => []
                end.
Proof.
  destruct m as [log [a|e|]]; cbn; [|now rewrite app_nil_r..].
  destruct (k a) as [log' o]. reflexivity.
Qed.

Lemma result_bind {A B} (m : M A) (k : A -> M B) :
  result (bind m k) =
  match result m with
  | Returns a => result (k a)
  | Throws e => Throws e
  | Pending => Pending
  end.
Proof.
  destruct m as [log [a|e|]]; cbn; try reflexivity.
  destruct (k a) as [log' o]. reflexivity.
Qed.

Lemma result_bind_returns {A B} (m : M A) (k : A -> M B) b :
  result (bind m k) = Returns b ->
  exists a, result m = Returns a /\ result (k a) = Returns b.
Proof.
  rewrite result_bind. destruct (result m) as [a|e|]; try discriminate.
  intros H. now exists a.
Qed.

Lemma map_outcome_app {A B} (f : A -> outcome B) (l1 l2 : list A) :
  map_outcome f (l1 ++ l2) =
  match map_outcome f l1 with
  | Returns ys1 =>
      match map_outcome f l2 with
      | Returns ys2 => Returns (ys1 ++ ys2)
      | Throws e => Throws e
      | Pending => Pending
      end
  | Throws e => Throws e
  | Pending => Pending
  end.
Proof.
  induction l1 as [|x l1 IH]; cbn.
  - now destruct (map_outcome f l2).
  - destruct (f x); [|reflexivity..]. rewrite IH.
    destruct (map_outcome f l1); [|reflexivity..].
    now destruct (map_outcome f l2).
Qed.

(** Pushing [requests] and [result] through the binds of a computation. *)
Ltac run_m :=
  repeat first
    [ rewrite result_bind
    | rewrite requests_bind
    | progress cbn [result requests lift ret throw snd fst
                    getObject multiGetObjects getDynamicFields queryEvents
                    devInspectTransactionBlock] ].

End RpcFacts.

(** ** Chunks *)

Module ChunkFacts.
Import Rpc Spec.

Lemma slices_chop {A} (size k : nat) : forall data : list A,
  map (fun i => slice data (i * size) (i * size + size)) (seq 0 k)
  = chop k size data.
Proof.
  induction k as [|k IH]; intros data; [reflexivity|].
  cbn [chop]. rewrite <- cons_seq, <- seq_shift, map_cons, map_map.
  f_equal.
  - unfold slice. cbn. now rewrite Nat.sub_0_r.
  - rewrite <- IH. apply map_ext. intros i. unfold slice.
    rewrite skipn_skipn. f_equal; [lia|]. f_equal. lia.
Qed.

Lemma concat_chop {A} (size k : nat) : forall data : list A,
  List.length data <= k * size -> concat (chop k size data) = data.
Proof.
  induction k as [|k IH]; intros data Hlen.
  - destruct data; [reflexivity|]. cbn in Hlen. lia.
  - cbn [chop concat]. rewrite IH; [apply firstn_skipn|].
    rewrite length_skipn. lia.
Qed.

Lemma sizes_chop {A} (size q r : nat) : forall data : list A,
  r < size -> List.length data = q * size + r ->
  map (@List.length A) (chop (q + if Nat.eqb r 0 then 0 else 1) size data)
  = repeat size q ++ (if Nat.eqb r 0 then [] else [r]).
Proof.
  induction q as [|q IH]; intros data Hr Hlen.
  - cbn [Nat.add repeat app]. destruct (Nat.eqb_spec r 0); [reflexivity|].
    cbn. rewrite length_firstn. f_equal. lia.
  - cbn [Nat.add chop map repeat app]. rewrite length_firstn. f_equal; [lia|].
    apply IH; [assumption|]. rewrite length_skipn. lia.
Qed.

Lemma chunks_chop {A} (data : list A) (size : nat) :
  0 < size ->
  chunks data size
  = Returns (chop ((List.length data + size - 1) / size) size data).
Proof.
  intros Hs. unfold chunks. destruct size as [|s]; [lia|].
  now rewrite slices_chop.
Qed.

Lemma chunks_spec {A} (data : list A) (size : nat) :
  0 < size ->
  exists cs, chunks data size = Returns cs /\ concat cs = data /\
    map (@List.length A) cs = chunk_sizes (List.length data) size.
Proof.
  intros Hs. eexists. split; [apply chunks_chop; assumption|].
  set (n := List.length data).
  assert (Hdm := Nat.div_mod_eq n size).
  assert (Hm := Nat.mod_upper_bound n size ltac:(lia)).
  assert (Hk : (n + size - 1) / size
               = n / size + if Nat.eqb (n mod size) 0 then 0 else 1).
  { destruct (Nat.eqb_spec (n mod size) 0) as [E|E].
    - symmetry. apply Nat.div_unique with (r := size - 1); nia.
    - symmetry. apply Nat.div_unique with (r := n mod size - 1); nia. }
  split.
  - apply concat_chop. rewrite Hk. fold n.
    destruct (Nat.eqb_spec (n mod size) 0); nia.
  - rewrite Hk. apply sizes_chop; [assumption|]. fold n. lia.
Qed.

Lemma Forall_concat_inv {A} (P : A -> Prop) (ls : list (list A)) :
  Forall P (concat ls) -> Forall (Forall P) ls.
Proof.
  induction ls as [|l ls IH]; cbn; [constructor|].
  intros H. apply Forall_app in H as [H1 H2]. constructor; auto.
Qed.

Lemma Forall_firstn {A} (P : A -> Prop) (k : nat) : forall l : list A,
  Forall P l -> Forall P (firstn k l).
Proof.
  induction k as [|k IH]; intros l Hl; [constructor|].
  destruct Hl as [|x l Hx Hl]; cbn; constructor; auto.
Qed.

End ChunkFacts.

(** ** The batch resolver *)

Module ResolverFacts.
Import Rpc Spec RpcFacts ChunkFacts.
Local Open Scope rpc_scope.

Section WithClient.
Variable client : SuiClient.

Lemma result_resolve_chunks {T} (cb : SuiObjectResponse.t -> outcome (option T))
  (cs : list (list JsId)) : forall acc,
  result (resolve_chunks client cb cs acc) =
  match map_outcome cb (map (object_response client) (concat cs)) with
  | Returns outs => Returns (acc ++ outs)
  | Throws e => Throws e
  | Pending => Pending
  end.
Proof.
  induction cs as [|chunk cs IH]; intros acc.
  - cbn. now rewrite app_nil_r.
  - cbn [resolve_chunks concat]. run_m.
    rewrite map_app, map_outcome_app.
    destruct (map_outcome cb (map (object_response client) chunk)) as [ys| |];
      [|reflexivity..].
    run_m. rewrite IH.
    destruct (map_outcome cb (map (object_response client) (concat cs)));
      [|reflexivity..].
    now rewrite app_assoc.
Qed.

Lemma requests_resolve_chunks {T} (cb : SuiObjectResponse.t -> outcome (option T))
  (cs : list (list JsId)) : forall acc r,
  result (resolve_chunks client cb cs acc) = Returns r ->
  requests (resolve_chunks client cb cs acc) = map MultiGetObjects cs.
Proof.
  induction cs as [|chunk cs IH]; intros acc r; [reflexivity|].
  cbn [resolve_chunks]. run_m.
  destruct (map_outcome cb (map (object_response client) chunk)) as [ys| |];
    try discriminate.
  run_m. intros H. cbn [map app]. f_equal. eapply IH. exact H.
Qed.

Lemma requests_resolve_chunks_prefix {T}
  (cb : SuiObjectResponse.t -> outcome (option T)) (cs : list (list JsId)) :
  forall acc, exists k,
    requests (resolve_chunks client cb cs acc)
    = map MultiGetObjects (firstn k cs).
Proof.
  induction cs as [|chunk cs IH]; intros acc; [now exists 0|].
  cbn [resolve_chunks]. run_m.
  destruct (map_outcome cb (map (object_response client) chunk)) as [ys| |].
  - run_m. destruct (IH (acc ++ ys)) as [k Hk]. exists (S k). cbn.
    now rewrite Hk.
  - now exists 1.
  - now exists 1.
Qed.

Lemma result_getOrders (ids : list JsId) :
  result (getOrders client ids) =
  match map_outcome resolve_order (map (object_response client) ids) with
  | Returns outs => Returns (defined outs)
  | Throws e => Throws e
  | Pending => Pending
  end.
Proof.
  destruct (@chunks_spec _ ids 50 ltac:(lia)) as (cs & Hcs & Hcat & _).
  unfold getOrders. rewrite Hcs. run_m.
  rewrite result_resolve_chunks, Hcat.
  now destruct (map_outcome resolve_order (map (object_response client) ids)).
Qed.

Lemma requests_getOrders (ids : list JsId) (cs : list (list JsId)) orders :
  chunks ids 50 = Returns cs ->
  result (getOrders client ids) = Returns orders ->
  requests (getOrders client ids) = map MultiGetObjects cs.
Proof.
  intros Hcs. unfold getOrders. rewrite Hcs. run_m.
  destruct (result (resolve_chunks client resolve_order cs [])) as [r| |] eqn:E;
    try discriminate.
  intros _. rewrite (requests_resolve_chunks _ _ _ E). cbn. apply app_nil_r.
Qed.

Lemma requests_getOrders_prefix (ids : list JsId) (cs : list (list JsId)) :
  chunks ids 50 = Returns cs ->
  exists k, requests (getOrders client ids) = map MultiGetObjects (firstn k cs).
Proof.
  intros Hcs. unfold getOrders. rewrite Hcs. run_m. cbn [app].
  destruct (requests_resolve_chunks_prefix resolve_order cs []) as [k Hk].
  exists k. rewrite Hk.
  destruct (result (resolve_chunks client resolve_order cs []));
    cbn; apply app_nil_r.
Qed.

Lemma lookup_resolve_order (id : JsId) (out : option BCS.Order.t) :
  lookup client id out ->
  resolve_order (object_response client id) = Returns out.
Proof.
  unfold resolve_order, resolve, bcs_de.
  intros [e He|He Hp|bcsBytes node He Hp Hd].
  - now rewrite He.
  - now rewrite He, Hp.
  - now rewrite He, Hp, Hd.
Qed.

Lemma lookup_map_outcome (ids : list JsId) (outs : list (option BCS.Order.t)) :
  Forall2 (lookup client) ids outs ->
  map_outcome resolve_order (map (object_response client) ids) = Returns outs.
Proof.
  induction 1 as [|id out ids outs Hl _ IH]; [reflexivity|].
  cbn. now rewrite (lookup_resolve_order Hl), IH.
Qed.

End WithClient.

End ResolverFacts.

(** ** The page loop *)

Module PageFacts.
Import Rpc Spec RpcFacts.
Local Open Scope rpc_scope.

Lemma serves_head {C T} (source : option C -> Page.t C T) c ps :
  serves source c ps -> exists ps', ps = source c :: ps'.
Proof. intros [H|ps' H1 H2]; eauto. Qed.

Section Loop.
Context {C T : Type}.
Variable source : option C -> Page.t C T.
Variable req : option C -> request.
Variable fetch : option C -> M (Page.t C T).
Hypothesis fetch_spec : forall c, fetch c = ([req c], Returns (source c)).

Lemma next_pages_serves (c : option C) (ps : list (Page.t C T)) :
  serves source c ps ->
  forall fuel data, List.length ps <= S fuel ->
  next_pages fetch fuel (source c) data
  = (map req (map Page.nextCursor (removelast ps)),
     Returns (data ++ concat (map Page.data (tl ps)))).
Proof.
  induction 1 as [c Hlast|c ps Hmore Hps IH]; intros fuel data Hlen.
  - destruct fuel; cbn; rewrite Hlast, app_nil_r; reflexivity.
  - destruct (serves_head Hps) as [ps' ->].
    destruct fuel as [|fuel]; [cbn in Hlen; lia|].
    cbn [next_pages]. rewrite Hmore, fetch_spec.
    cbn [bind]. rewrite IH by (cbn in *; lia).
    cbn [removelast tl map concat app].
    now rewrite <- app_assoc.
Qed.

Lemma all_pages_serves (ps : list (Page.t C T)) (fuel : nat) :
  serves source None ps -> List.length ps <= S fuel ->
  all_pages fetch fuel = (map req (cursors ps), Returns (items ps)).
Proof.
  intros Hps Hlen. unfold all_pages. rewrite fetch_spec. cbn [bind].
  rewrite (next_pages_serves Hps) by assumption.
  destruct (serves_head Hps) as [ps' ->]. reflexivity.
Qed.

(** Nothing but the fetch requests is sent by the loop. *)
Lemma next_pages_requests (P : request -> Prop) :
  (forall c, P (req c)) ->
  forall fuel page data, Forall P (requests (next_pages fetch fuel page data)).
Proof.
  intros HP. induction fuel as [|fuel IH]; intros page data; cbn [next_pages].
  - destruct (Page.hasNextPage page); constructor.
  - destruct (Page.hasNextPage page); [|constructor].
    rewrite fetch_spec. cbn [bind].
    specialize (IH (source (Page.nextCursor page))
                  (data ++ Page.data (source (Page.nextCursor page)))).
    destruct (next_pages fetch fuel _ _) as [log o]. cbn in *.
    constructor; [apply HP|exact IH].
Qed.

Lemma all_pages_requests (P : request -> Prop) (fuel : nat) :
  (forall c, P (req c)) -> Forall P (requests (all_pages fetch fuel)).
Proof.
  intros HP. unfold all_pages. rewrite fetch_spec. cbn [bind].
  pose proof (next_pages_requests P HP fuel (source None) (Page.data (source None))) as H.
  destruct (next_pages fetch fuel _ _) as [log o]. cbn in *.
  constructor; [apply HP|exact H].
Qed.
End Loop.

Section WithClient.
Variable client : SuiClient.

Lemma getAllDFPages_serves fuel parentId ps :
  serves (dynamic_fields_page client parentId) None ps ->
  List.length ps <= S fuel ->
  getAllDFPages client fuel parentId
  = (map (GetDynamicFields parentId) (cursors ps),
     Returns (filter has_objectId (items ps))).
Proof.
  intros Hps Hlen. unfold getAllDFPages.
  rewrite (all_pages_serves (GetDynamicFields parentId)
             (getDynamicFields client parentId) (fun c => eq_refl) Hps Hlen).
  cbn. now rewrite app_nil_r.
Qed.

Lemma retrieveAllPools_serves fuel ps :
  serves (events_page client PoolCreated_type) None ps ->
  List.length ps <= S fuel ->
  retrieveAllPools client fuel
  = (map (QueryEvents PoolCreated_type) (cursors ps),
     map_outcome (fun event => bcs_de BCS.T_PoolCreated (SuiEvent.bcs event))
       (items ps)).
Proof.
  intros Hps Hlen. unfold retrieveAllPools.
  rewrite (all_pages_serves (QueryEvents PoolCreated_type)
             (queryEvents client PoolCreated_type) (fun c => eq_refl) Hps Hlen).
  cbn. now rewrite app_nil_r.
Qed.

Lemma filter_has_objectId (nodes : list DynamicFieldInfo.t) :
  Forall (fun node => DynamicFieldInfo.objectId node <> None) nodes ->
  filter has_objectId nodes = nodes.
Proof.
  induction 1 as [|node nodes Hnode _ IH]; [reflexivity|].
  cbn [filter]. unfold has_objectId at 1.
  destruct (DynamicFieldInfo.objectId node); [now rewrite IH|congruence].
Qed.

Lemma getAllDFPages_filtered fuel parentId nodes :
  result (getAllDFPages client fuel parentId) = Returns nodes ->
  exists data,
    result (all_pages (getDynamicFields client parentId) fuel) = Returns data /\
    nodes = filter has_objectId data.
Proof.
  unfold getAllDFPages. intros H.
  apply result_bind_returns in H as (data & Hd & Hr).
  exists data. split; [exact Hd|]. cbn in Hr. congruence.
Qed.

Lemma getAllDFPages_defined fuel parentId nodes :
  result (getAllDFPages client fuel parentId) = Returns nodes ->
  Forall (fun node => DynamicFieldInfo.objectId node <> None) nodes.
Proof.
  intros H. apply getAllDFPages_filtered in H as (data & _ & ->).
  apply Forall_forall. intros node Hin. apply filter_In in Hin as [_ Hid].
  unfold has_objectId in Hid.
  destruct (DynamicFieldInfo.objectId node); [discriminate|discriminate Hid].
Qed.

Lemma getAllDFPages_requests fuel parentId :
  Forall (fun r => exists p c, r = GetDynamicFields p c)
    (requests (getAllDFPages client fuel parentId)).
Proof.
  unfold getAllDFPages. rewrite requests_bind.
  apply Forall_app. split.
  - apply (@all_pages_requests _ _ (dynamic_fields_page client parentId)
             (GetDynamicFields parentId) (getDynamicFields client parentId)
             (fun c => eq_refl)).
    intros c. eauto.
  - destruct (result _); constructor.
Qed.

End WithClient.

End PageFacts.

(** ** JavaScript numbers *)

Module JSFacts.
Import JS.
Local Open Scope Z_scope.

Lemma round_double_exact (z : Z) : Z.abs z <= 2 ^ 53 -> round_double z = z.
Proof.
  intros Hz. unfold round_double.
  destruct (Z.leb_spec (Z.abs z) (2 ^ 53)); [reflexivity|exfalso; lia].
Qed.

(** Rounding never takes an integer above [2^53] below [2^53]. *)
Lemma round_double_large (z : Z) : 2 ^ 53 < z -> 2 ^ 53 <= round_double z.
Proof.
  intros Hz. unfold round_double.
  rewrite (Z.abs_eq z) by lia. rewrite (Z.sgn_pos z) by lia.
  destruct (Z.leb_spec z (2 ^ 53)); [exfalso; lia|].
  set (e := Z.log2 z - 52).
  assert (Hlog : 53 <= Z.log2 z).
  { change 53 with (Z.log2 (2 ^ 53)). apply Z.log2_le_mono. lia. }
  assert (He : 1 <= e) by (unfold e; lia).
  assert (Hpow : 0 < 2 ^ e) by (apply Z.pow_pos_nonneg; lia).
  assert (Hq : 2 ^ 52 <= z / 2 ^ e).
  { apply Z.div_le_lower_bound; [exact Hpow|].
    rewrite <- Z.pow_add_r by lia.
    replace (e + 52) with (Z.log2 z) by (unfold e; lia).
    apply Z.log2_spec. lia. }
  assert (H2 : 2 <= 2 ^ e).
  { change 2 with (2 ^ 1) at 1. apply Z.pow_le_mono_r; lia. }
  set (q := z / 2 ^ e) in *.
  destruct ((2 ^ (e - 1) <? z mod 2 ^ e) || ((2 ^ (e - 1) =? z mod 2 ^ e) && Z.odd q));
    nia.
Qed.

Lemma le_number_of_u64 (n : N) (now : Z) :
  now < 2 ^ 53 ->
  le (number_of_u64 n) (Num now) = (Z.of_N n <=? now).
Proof.
  intros Hnow. unfold number_of_u64, le.
  destruct (Z_le_gt_dec (Z.of_N n) (2 ^ 53)) as [Hs|Hl].
  - rewrite round_double_exact; [reflexivity|]. rewrite Z.abs_eq; lia.
  - pose proof (round_double_large (z := Z.of_N n) ltac:(lia)) as Hr.
    destruct (Z.leb_spec (round_double (Z.of_N n)) now);
      destruct (Z.leb_spec (Z.of_N n) now); try reflexivity; exfalso; lia.
Qed.

Lemma sub_exact (x y : Z) :
  Z.abs (x - y) <= 2 ^ 53 -> sub (Num x) (Num y) = Num (x - y).
Proof. intros H. cbn. now rewrite round_double_exact. Qed.

(** Reading a decimal numeral digit by digit *)

Lemma parse_digits_uint (d : Decimal.uint) : forall acc : Decimal.uint,
  parse_digits 10 (NilEmpty.string_of_uint d) (DecimalPos.Unsigned.of_lu acc)
  = DecimalPos.Unsigned.of_lu (Decimal.revapp d acc).
Proof.
  induction d as [|d IH|d IH|d IH|d IH|d IH|d IH|d IH|d IH|d IH|d IH];
    intros acc; [reflexivity|..];
    cbn [NilEmpty.string_of_uint parse_digits Decimal.revapp];
    match goal with
    | |- context [digit_value 10 ?c] =>
        let v := eval vm_compute in (digit_value 10 c) in
        change (digit_value 10 c) with v
    end;
    rewrite <- IH; f_equal; cbn [DecimalPos.Unsigned.of_lu]; lia.
Qed.

Lemma parse_digits_decimal (n : N) : parse_digits 10 (decimal n) 0 = n.
Proof.
  unfold decimal.
  change 0%N with (DecimalPos.Unsigned.of_lu Decimal.Nil).
  rewrite parse_digits_uint.
  change (Decimal.revapp (N.to_uint n) Decimal.Nil) with (Decimal.rev (N.to_uint n)).
  rewrite <- DecimalPos.Unsigned.of_uint_alt.
  exact (DecimalN.Unsigned.of_to n).
Qed.

Lemma parseInt_uint (d : Decimal.uint) :
  d <> Decimal.Nil ->
  parseInt (NilEmpty.string_of_uint d)
  = Num (round_double (Z.of_N (parse_digits 10 (NilEmpty.string_of_uint d) 0))).
Proof.
  intros Hd.
  destruct d as [|d|d|d|d|d|d|d|d|d|d]; [congruence|..];
    destruct d; cbn [NilEmpty.string_of_uint]; unfold parseInt;
    cbn [trim_start is_space N_of_ascii N_of_digits]; cbn - [round_double parse_digits Z.mul];
    rewrite ?Z.mul_1_l; try reflexivity;
    match goal with |- context [Z.of_N ?x] => destruct (Z.of_N x); reflexivity end.
Qed.

Lemma to_uint_nonnil (n : N) : N.to_uint n <> Decimal.Nil.
Proof.
  destruct n as [|p]; [discriminate|]. apply DecimalPos.Unsigned.to_uint_nonnil.
Qed.

Lemma parseInt_decimal (n : N) :
  parseInt (decimal n) = Num (round_double (Z.of_N n)).
Proof.
  unfold decimal at 1. rewrite parseInt_uint by apply to_uint_nonnil.
  fold (decimal n). now rewrite parse_digits_decimal.
Qed.

End JSFacts.

(** ** The transaction builder *)

Module TxFacts.
Import Tx Rpc Spec.

Lemma extends_refl tx : extends tx tx.
Proof. split; exists []; now rewrite app_nil_r. Qed.

Lemma extends_trans tx1 tx2 tx3 :
  extends tx1 tx2 -> extends tx2 tx3 -> extends tx1 tx3.
Proof.
  intros [[i1 Hi1] [t1 Ht1]] [[i2 Hi2] [t2 Ht2]]. split.
  - exists (i1 ++ i2). now rewrite Hi2, Hi1, app_assoc.
  - exists (t1 ++ t2). now rewrite Ht2, Ht1, app_assoc.
Qed.

Lemma nth_error_stable {A} (l l' : list A) i x :
  nth_error l i = Some x -> nth_error (l ++ l') i = Some x.
Proof.
  intros H. rewrite nth_error_app1; [exact H|].
  apply nth_error_Some. congruence.
Qed.

Lemma mapB_cons {A B} (f : A -> Build B) (x : A) (l : list A) tx :
  mapB f (x :: l) tx
  = (fst (f x tx) :: fst (mapB f l (snd (f x tx))),
     snd (mapB f l (snd (f x tx)))).
Proof.
  cbn [mapB]. unfold Tx.bind, Tx.ret. destruct (f x tx) as [y tx1]. cbn [fst snd].
  destruct (mapB f l tx1) as [ys tx2]. reflexivity.
Qed.

Lemma mapB_pure {A B} (codec : BCS.Bcs B) (f : A -> B) (l : list A) :
  forall tx,
    mapB (fun x => pure codec (f x)) l tx
    = (map Input (seq (List.length (inputs tx)) (List.length l)),
       mkBlock (inputs tx ++ map (fun x => Pure (@BCS.ser B codec (f x))) l)
               (transactions tx)).
Proof.
  induction l as [|x l IH]; intros tx.
  - cbn. rewrite app_nil_r. now destruct tx.
  - rewrite mapB_cons, IH. unfold pure, add_input.
    cbn [fst snd inputs transactions List.length seq map].
    rewrite length_app, Nat.add_1_r, <- app_assoc. reflexivity.
Qed.

Lemma pure_inputs_resolve {A} (h : A -> bytes) (l : list A) :
  forall (pre post : list CallArg) (ts : list Transaction),
    map (input_value (mkBlock (pre ++ map (fun x => Pure (h x)) l ++ post) ts))
        (map Input (seq (List.length pre) (List.length l)))
    = map (fun x => VPure (h x)) l.
Proof.
  induction l as [|x l IH]; intros pre post ts; [reflexivity|].
  cbn [List.length seq map input_value inputs]. f_equal.
  - rewrite nth_error_app2, Nat.sub_diag by lia. reflexivity.
  - specialize (IH (pre ++ [Pure (h x)]) post ts).
    rewrite length_app, Nat.add_1_r, <- app_assoc in IH. exact IH.
Qed.

Lemma bytes_eqb_eq (a b : bytes) : bytes_eqb a b = true -> a = b.
Proof. unfold bytes_eqb. now destruct (list_eq_dec Byte.byte_eq_dec a b). Qed.

Lemma find_object_spec (id : ObjectId) (ins : list CallArg) : forall k i,
  find_object id ins k = Some i ->
  exists j, i = k + j /\ nth_error ins j = Some (Object id).
Proof.
  induction ins as [|[b|id'] ins IH]; intros k i; cbn [find_object].
  - discriminate.
  - intros H. apply IH in H as (j & -> & Hj). exists (S j). split; [lia|exact Hj].
  - destruct (bytes_eqb id id') eqn:E.
    + intros [= <-]. apply bytes_eqb_eq in E as <-. exists 0. split; [lia|reflexivity].
    + intros H. apply IH in H as (j & -> & Hj). exists (S j). split; [lia|exact Hj].
Qed.

Lemma object_spec (id : ObjectId) (tx : TransactionBlock) :
  exists i ins,
    object id tx = (Input i, mkBlock (inputs tx ++ ins) (transactions tx)) /\
    nth_error (inputs tx ++ ins) i = Some (Object id).
Proof.
  unfold object. destruct (find_object id (inputs tx) 0) as [i|] eqn:E.
  - apply find_object_spec in E as (j & -> & Hj). exists j, []. split.
    + rewrite app_nil_r. now destruct tx.
    + rewrite app_nil_r. exact Hj.
  - exists (List.length (inputs tx)), [Object id]. split; [reflexivity|].
    rewrite nth_error_app2, Nat.sub_diag by lia. reflexivity.
Qed.

Lemma calls_of_app (tx : TransactionBlock) (ts1 ts2 : list Transaction) :
  calls_of tx (ts1 ++ ts2) = calls_of tx ts1 ++ calls_of tx ts2.
Proof.
  induction ts1 as [|[ty objs|target args tys] ts1 IH]; cbn; [reflexivity|assumption|].
  now rewrite IH.
Qed.

Lemma nth_error_middle {A} (l1 l2 : list A) (x : A) :
  nth_error (l1 ++ x :: l2) (List.length l1) = Some x.
Proof. rewrite nth_error_app2, Nat.sub_diag by lia. reflexivity. Qed.

(** One pass of the loop appends two vectors and one move call, and that call
    resolves to the instruction of its pair in every later block. *)
Lemma add_clean_up_spec (poolOrder : PoolOrders) (tx : TransactionBlock) :
  exists tx' mv1 mv2 call,
    add_clean_up poolOrder tx = (tt, tx') /\
    extends tx tx' /\
    transactions tx' = transactions tx ++ [mv1; mv2; call] /\
    forall final, extends tx' final ->
      calls_of final [mv1; mv2; call] = [instruction poolOrder].
Proof.
  destruct tx as [ins ts]. destruct poolOrder as [p orders].
  unfold add_clean_up, Tx.bind. cbn [pool expiredOrders].
  rewrite mapB_pure. cbn [inputs transactions].
  rewrite mapB_pure. cbn [inputs transactions].
  unfold makeMoveVec, moveCall, add. cbn [inputs transactions].
  set (P1 := map (fun x => Pure (@BCS.ser _ BCS.Bcs_u64 (BCS.Order.order_id x))) orders).
  set (P2 := map (fun x => Pure (@BCS.ser _ BCS.Bcs_address (BCS.Order.owner x))) orders).
  set (ids := map Input (seq (List.length ins) (List.length orders))).
  set (owners := map Input (seq (List.length (ins ++ P1)) (List.length orders))).
  match goal with
  | |- context [object ?id ?t] =>
      destruct (object_spec id t) as (pi & insP & -> & Hpi)
  end.
  cbn [inputs transactions] in *.
  match goal with
  | |- context [object ?id ?t] =>
      destruct (object_spec id t) as (ci & insC & -> & Hci)
  end.
  cbn [inputs transactions] in *.
  do 4 eexists. split; [reflexivity|]. split; [|split].
  - split; cbn [inputs transactions].
    + exists (P1 ++ P2 ++ insP ++ insC). now rewrite <- !app_assoc.
    + eexists. rewrite <- !app_assoc. reflexivity.
  - cbn [inputs transactions]. rewrite <- !app_assoc. reflexivity.
  - intros [fi ft] [[insF Hi] [tsF Ht]]. cbn [inputs transactions] in Hi, Ht.
    cbn [calls_of map]. unfold instruction. cbn [pool expiredOrders].
    f_equal. f_equal. repeat f_equal.
    + cbn [arg_value input_value inputs]. rewrite Hi.
      now rewrite (@nth_error_stable _ _ insF _ _ (@nth_error_stable _ _ insC _ _ Hpi)).
    + cbn [arg_value input_value inputs]. rewrite Hi.
      now rewrite (@nth_error_stable _ _ insF _ _ Hci).
    + cbn [arg_value transactions]. rewrite Ht, <- !app_assoc. cbn [app].
      rewrite nth_error_middle. f_equal. subst fi ids.
      rewrite <- !app_assoc. apply pure_inputs_resolve.
    + cbn [arg_value transactions]. rewrite Ht, <- !app_assoc.
      rewrite (app_assoc ts [MakeMoveVec "u64" ids]). cbn [app].
      rewrite nth_error_middle. f_equal. subst fi owners.
      rewrite <- !app_assoc, (app_assoc ins P1).
      apply (pure_inputs_resolve (fun x => BCS.Order.owner x)).
Qed.

Lemma add_clean_ups_spec (poolOrders : list PoolOrders) :
  forall tx, exists ts,
    extends tx (snd (add_clean_ups poolOrders tx)) /\
    transactions (snd (add_clean_ups poolOrders tx)) = transactions tx ++ ts /\
    calls_of (snd (add_clean_ups poolOrders tx)) ts = map instruction poolOrders.
Proof.
  induction poolOrders as [|poolOrder rest IH]; intros tx.
  - exists []. cbn. rewrite app_nil_r. auto using extends_refl.
  - destruct (add_clean_up_spec poolOrder tx)
      as (tx' & mv1 & mv2 & call & Hrun & Hext & Hts & Hcall).
    cbn [add_clean_ups]. unfold Tx.bind. rewrite Hrun.
    destruct (IH tx') as (ts' & Hext' & Hts' & Hcalls').
    exists ([mv1; mv2; call] ++ ts'). split; [|split].
    + eapply extends_trans; eassumption.
    + rewrite Hts', Hts, <- app_assoc. reflexivity.
    + rewrite calls_of_app, (Hcall _ Hext'), Hcalls'. reflexivity.
Qed.

Lemma move_calls_add_clean_ups (poolOrders : list PoolOrders) :
  move_calls (snd (add_clean_ups poolOrders Tx.empty))
  = map instruction poolOrders.
Proof.
  destruct (add_clean_ups_spec poolOrders Tx.empty) as (ts & _ & Hts & Hcalls).
  unfold move_calls. rewrite Hts. exact Hcalls.
Qed.

End TxFacts.

(** ** The order book reconstruction *)

Module ReconstructFacts.
Import Rpc Spec RpcFacts ChunkFacts ResolverFacts PageFacts.
Local Open Scope rpc_scope.

Lemma result_bind_throws {A B} (m : M A) (k : A -> M B) e :
  result (bind m k) = Throws e ->
  result m = Throws e \/ exists a, result m = Returns a /\ result (k a) = Throws e.
Proof.
  rewrite result_bind. destruct (result m) as [a|e'|].
  - intros H. right. exists a. split; [reflexivity|exact H].
  - intros [= <-]. now left.
  - discriminate.
Qed.

Lemma requests_bind_Forall {A B} (P : request -> Prop) (m : M A) (k : A -> M B) :
  Forall P (requests m) ->
  (forall a, result m = Returns a -> Forall P (requests (k a))) ->
  Forall P (requests (bind m k)).
Proof.
  intros Hm Hk. rewrite requests_bind. apply Forall_app. split; [exact Hm|].
  destruct (result m) as [a| |]; [now apply Hk|constructor..].
Qed.

Lemma map_outcome_throws {A B} (f : A -> outcome B) (l : list A) e :
  map_outcome f l = Throws e -> exists x, In x l /\ f x = Throws e.
Proof.
  induction l as [|x l IH]; cbn; [discriminate|].
  destruct (f x) as [y| |] eqn:E.
  - destruct (map_outcome f l); try discriminate.
    intros [= <-]. destruct IH as (x' & Hin & Hx'); eauto.
  - intros [= <-]. eauto.
  - discriminate.
Qed.

Lemma bcs_de_throws (name : BCS.type_name) buf e :
  bcs_de name buf = Throws e -> builtin e.
Proof.
  unfold bcs_de. destruct (BCS.de buf); [discriminate|].
  intros [= <-]. now right.
Qed.

Lemma resolve_throws {T} (dec : bytes -> outcome T) response e :
  (forall buf e', dec buf = Throws e' -> builtin e') ->
  resolve dec response = Throws e -> builtin e.
Proof.
  intros Hdec. unfold resolve.
  destruct (SuiObjectResponse.error response); [discriminate|].
  destruct (payload response) as [[buf|]|].
  - destruct (dec buf) eqn:E; try discriminate. intros [= <-]. eauto.
  - discriminate.
  - intros [= <-]. now left.
Qed.

Lemma resolve_tickLevel_throws response e :
  resolve_tickLevel response = Throws e -> builtin e.
Proof.
  apply resolve_throws. intros buf e'.
  destruct (bcs_de _ buf) eqn:E; try discriminate.
  intros [= <-]. eapply bcs_de_throws. exact E.
Qed.

Lemma resolve_order_throws response e :
  resolve_order response = Throws e -> builtin e.
Proof.
  apply resolve_throws. intros buf e'.
  destruct (bcs_de _ buf) eqn:E; try discriminate.
  intros [= <-]. eapply bcs_de_throws. exact E.
Qed.

Lemma all_throws {A} (promises : list (M A)) e :
  result (all promises) = Throws e ->
  exists p, In p promises /\ result p = Throws e.
Proof.
  induction promises as [|p promises IH]; cbn [all result snd]; [discriminate|].
  destruct (result p) as [a|e'|] eqn:Ep.
  - destruct (result (all promises)) as [l|e'|] eqn:Er; try discriminate.
    intros [= <-]. destruct (IH eq_refl) as (q & Hin & Hq).
    exists q. split; [now right|exact Hq].
  - intros [= <-]. exists p. split; [now left|exact Ep].
  - destruct (result (all promises)) as [l|e'|] eqn:Er; try discriminate.
    intros [= <-]. destruct (IH eq_refl) as (q & Hin & Hq).
    exists q. split; [now right|exact Hq].
Qed.

Lemma all_returns {A} (promises : list (M A)) : forall ys,
  result (all promises) = Returns ys ->
  Forall2 (fun p y => result p = Returns y) promises ys.
Proof.
  induction promises as [|p promises IH]; cbn [all result snd]; intros ys H.
  - injection H as <-. constructor.
  - destruct (result p) as [a|e'|] eqn:Ep; try discriminate.
    + destruct (result (all promises)) as [l|e'|] eqn:Er; try discriminate.
      injection H as <-. constructor; auto.
    + destruct (result (all promises)); discriminate.
Qed.

Lemma all_requests {A} (P : request -> Prop) (promises : list (M A)) :
  Forall (fun p => Forall P (requests p)) promises ->
  Forall P (requests (all promises)).
Proof.
  induction 1 as [|p promises Hp _ IH]; cbn [all requests fst]; [constructor|].
  apply Forall_app. split; assumption.
Qed.

Section WithClient.
Variable client : SuiClient.

Lemma next_pages_no_throw {C T} (fetch : option C -> M (Page.t C T))
  (Hfetch : forall c e, result (fetch c) <> Throws e) (fuel : nat) :
  forall page data e, result (next_pages fetch fuel page data) <> Throws e.
Proof.
  induction fuel as [|fuel IH]; intros page data e; cbn [next_pages];
    destruct (Page.hasNextPage page); try discriminate.
  intros H. apply result_bind_throws in H as [H|(p & _ & H)].
  - exact (Hfetch _ _ H).
  - exact (IH _ _ _ H).
Qed.

Lemma getAllDFPages_no_throw fuel parentId e :
  result (getAllDFPages client fuel parentId) <> Throws e.
Proof.
  unfold getAllDFPages, all_pages. intros H.
  apply result_bind_throws in H as [H|(data & _ & H)]; [|discriminate].
  apply result_bind_throws in H as [H|(page & _ & H)]; [discriminate|].
  revert H. apply next_pages_no_throw. discriminate.
Qed.

Lemma resolve_chunks_throws {T} (cb : SuiObjectResponse.t -> outcome (option T))
  cs acc e :
  result (resolve_chunks client cb cs acc) = Throws e ->
  exists response, cb response = Throws e.
Proof.
  rewrite result_resolve_chunks.
  destruct (map_outcome cb _) eqn:E; try discriminate.
  intros [= <-]. apply map_outcome_throws in E as (x & _ & Hx). eauto.
Qed.

Lemma getOrders_throws ids e :
  result (getOrders client ids) = Throws e -> builtin e.
Proof.
  rewrite result_getOrders.
  destruct (map_outcome resolve_order _) eqn:E; try discriminate.
  intros [= <-]. apply map_outcome_throws in E as (x & _ & Hx).
  eapply resolve_order_throws. exact Hx.
Qed.

Lemma chunks_50 {A} (ids : list A) :
  exists cs, chunks ids 50 = Returns cs /\ concat cs = ids.
Proof.
  destruct (@chunks_spec _ ids 50 ltac:(lia)) as (cs & H1 & H2 & _). eauto.
Qed.

(** The reconstruction fails only with the exceptions of the runtime and
    of the decoder. *)
Lemma reconstruct_throws fuel bcsBytes e :
  result (reconstruct client fuel bcsBytes) = Throws e -> builtin e.
Proof.
  unfold reconstruct. intros H.
  apply result_bind_throws in H as [H|(p & _ & H)];
    [eapply bcs_de_throws; exact H|].
  apply result_bind_throws in H as [H|(asks & _ & H)];
    [now apply getAllDFPages_no_throw in H|].
  apply result_bind_throws in H as [H|(bids & _ & H)];
    [now apply getAllDFPages_no_throw in H|].
  destruct (chunks_50 (map DynamicFieldInfo.objectId (bids ++ asks)))
    as (cs & Hcs & _).
  rewrite Hcs in H.
  apply result_bind_throws in H as [H|(cs' & _ & H)]; [discriminate|].
  apply result_bind_throws in H as [H|(tickLevels & _ & H)].
  { apply resolve_chunks_throws in H as (r & Hr).
    eapply resolve_tickLevel_throws. exact Hr. }
  apply result_bind_throws in H as [H|(lists & _ & H)].
  { apply all_throws in H as (q & Hin & H).
    apply in_map_iff in Hin as (tickLevel & <- & _). unfold limit in H.
    apply result_bind_throws in H as [H|(d & _ & H)]; [|discriminate].
    now apply getAllDFPages_no_throw in H. }
  eapply getOrders_throws. exact H.
Qed.

Lemma resolve_chunks_ids_defined {T}
  (cb : SuiObjectResponse.t -> outcome (option T)) cs acc :
  Forall (Forall (fun id : JsId => id <> None)) cs ->
  Forall ids_defined (requests (resolve_chunks client cb cs acc)).
Proof.
  intros Hcs. destruct (requests_resolve_chunks_prefix client cb cs acc) as [k ->].
  apply Forall_map. apply Forall_firstn. exact Hcs.
Qed.

Lemma getAllDFPages_ids_defined fuel parentId :
  Forall ids_defined (requests (getAllDFPages client fuel parentId)).
Proof.
  eapply Forall_impl; [|apply getAllDFPages_requests].
  intros r (p & c & ->). exact I.
Qed.

Lemma getAllDFPages_objectIds fuel parentId nodes :
  result (getAllDFPages client fuel parentId) = Returns nodes ->
  Forall (fun id : JsId => id <> None) (map DynamicFieldInfo.objectId nodes).
Proof.
  intros H. apply Forall_map. eapply getAllDFPages_defined. exact H.
Qed.

Lemma getOrders_ids_defined ids :
  Forall (fun id : JsId => id <> None) ids ->
  Forall ids_defined (requests (getOrders client ids)).
Proof.
  intros Hids. destruct (chunks_50 ids) as (cs & Hcs & Hcat).
  destruct (requests_getOrders_prefix client Hcs) as [k ->].
  apply Forall_map. apply Forall_firstn. apply Forall_concat_inv.
  now rewrite Hcat.
Qed.

(** No multi-id lookup sent by the reconstruction names an undefined id. *)
Lemma reconstruct_ids_defined fuel bcsBytes :
  Forall ids_defined (requests (reconstruct client fuel bcsBytes)).
Proof.
  unfold reconstruct.
  apply requests_bind_Forall; [constructor|]. intros p _.
  apply requests_bind_Forall; [apply getAllDFPages_ids_defined|].
  intros asks Hasks.
  apply requests_bind_Forall; [apply getAllDFPages_ids_defined|].
  intros bids Hbids.
  assert (Hids : Forall (fun id : JsId => id <> None)
                   (map DynamicFieldInfo.objectId (bids ++ asks))).
  { rewrite map_app. apply Forall_app.
    split; eapply getAllDFPages_objectIds; eassumption. }
  destruct (chunks_50 (map DynamicFieldInfo.objectId (bids ++ asks)))
    as (cs & Hcs & Hcat).
  rewrite Hcs.
  apply requests_bind_Forall; [constructor|]. intros cs' [= <-].
  apply requests_bind_Forall.
  { apply resolve_chunks_ids_defined. apply Forall_concat_inv. now rewrite Hcat. }
  intros tickLevels _.
  apply requests_bind_Forall.
  { apply all_requests. apply Forall_map, Forall_forall. intros tickLevel _.
    unfold limit.
    apply requests_bind_Forall; [apply getAllDFPages_ids_defined|].
    intros data _. constructor. }
  intros lists Hlists. apply getOrders_ids_defined.
  apply all_returns in Hlists.
  remember (map _ (defined tickLevels)) as promises eqn:Hpromises.
  revert Hpromises. generalize (defined tickLevels) as levels.
  induction Hlists as [|q ids qs lists Hone _ IH]; intros levels Hpromises;
    [constructor|].
  destruct levels as [|tickLevel levels]; [discriminate|].
  cbn [map] in Hpromises. injection Hpromises as -> Hqs.
  cbn [concat]. apply Forall_app. split; [|exact (IH _ Hqs)].
  unfold limit in Hone.
  apply result_bind_returns in Hone as (data & Hdata & Hret).
  injection Hret as <-. eapply getAllDFPages_objectIds. exact Hdata.
Qed.

Lemma retrieveExpiredOrders_ids_defined fuel now poolId :
  Forall ids_defined (requests (retrieveExpiredOrders client fuel now poolId)).
Proof.
  unfold retrieveExpiredOrders.
  apply requests_bind_Forall; [repeat constructor|]. intros response _.
  destruct (payload response) as [[bcsBytes|]|]; try constructor.
  apply requests_bind_Forall; [apply reconstruct_ids_defined|].
  intros orders _. constructor.
Qed.

End WithClient.

End ReconstructFacts.

(** ** The claims *)

Module Claims.
Import Rpc Spec.
Local Open Scope Z_scope.

(** The end-to-end run of the small ledger: one pool is discovered, its three
    orders are reconstructed, the two expired ones go into the single
    instruction of the batch, and the dry run gives a rebate of 150. *)
Example end_to_end :
  exists r,
    result (main Stub.client 1 Stub.now) = Returns r /\
    Tx.move_calls (tx r)
      = [instruction (mkPoolOrders Stub.created [Stub.order1; Stub.order3])] /\
    rebate r = JS.Num 150.
Proof. eexists. repeat split; vm_compute; reflexivity. Qed.

(** C1 (as amended).  For every list of (pool, expired orders) pairs,
    [createCleanUpTransaction] sends one dry run and returns a block whose
    move calls are, in input order, exactly one clean-up instruction per
    pair, whether or not the pair's list of expired orders is empty.  Each
    instruction carries the pool's id, the clock object [0x6], the vector of
    the expired order ids, the parallel vector of their owners, and the
    pool's base and quote asset types. *)
Theorem createCleanUpTransaction_one_instruction_per_pair
  (client : SuiClient) (poolOrders : list PoolOrders) :
  exists r,
    createCleanUpTransaction client poolOrders
      = ([DevInspectTransactionBlock (tx r) sender], Returns r) /\
    Tx.move_calls (tx r) = map instruction poolOrders /\
    List.length (Tx.move_calls (tx r)) = List.length poolOrders.
Proof.
  set (block := snd (add_clean_ups poolOrders Tx.empty)).
  exists (mkCleanUp
            (rebate_of (gasUsed (effects (dev_inspect client block sender))))
            block).
  split; [reflexivity|]. cbn [tx]. subst block.
  rewrite TxFacts.move_calls_add_clean_ups. split; [reflexivity|].
  apply length_map.
Qed.

(** C1 as stated fails: a pair with no expired order still contributes an
    instruction, with two empty vectors. *)
Lemma createCleanUpTransaction_empty_pair_counterexample :
  exists r,
    result (createCleanUpTransaction Stub.client [Stub.quiet_pool]) = Returns r /\
    filter has_expired [Stub.quiet_pool] = [] /\
    Tx.move_calls (tx r)
      = [Tx.mkCall clean_up_target
           [Tx.VInput (Tx.VObject Stub.pool_id); Tx.VInput (Tx.VObject clock);
            Tx.VVec "u64" []; Tx.VVec "address" []]
           ["0x2::sui::SUI"%string; "0x5d4b::coin::COIN"%string]] /\
    List.length (Tx.move_calls (tx r))
      <> List.length (filter has_expired [Stub.quiet_pool]).
Proof.
  eexists. split; [reflexivity|]. split; [reflexivity|].
  split; [vm_compute; reflexivity|]. vm_compute. discriminate.
Qed.

(** C2.  The expiry test is a function of the order and of the clock reading
    alone, and for every reading of [Date.now()] (an integer time value, of
    magnitude at most 8.64e15) it holds exactly when the order's
    [expire_timestamp] is at most the reading: an order expiring at [now] is
    expired, one expiring at [now + 1] is not. *)
Theorem is_expired_iff (now : Z) (order : BCS.Order.t) :
  Z.abs now <= 8640000000000000 ->
  (is_expired now order = true <->
     Z.of_N (BCS.Order.expire_timestamp order) <= now) /\
  (Z.of_N (BCS.Order.expire_timestamp order) = now ->
     is_expired now order = true) /\
  (Z.of_N (BCS.Order.expire_timestamp order) = now + 1 ->
     is_expired now order = false).
Proof.
  intros Hnow. unfold is_expired.
  rewrite JSFacts.le_number_of_u64 by lia.
  repeat split.
  - apply Z.leb_le.
  - apply Z.leb_le.
  - intros ->. apply Z.leb_refl.
  - intros ->. apply Z.leb_gt. lia.
Qed.

Lemma is_expired_iff_witness :
  Z.abs Stub.now <= 8640000000000000 /\
  is_expired Stub.now Stub.order1 = true /\
  is_expired Stub.now Stub.order2 = false.
Proof.
  assert (H : Z.abs Stub.now <= 8640000000000000) by (vm_compute; discriminate).
  split; [exact H|]. split.
  - apply (proj1 (@is_expired_iff Stub.now Stub.order1 H)). vm_compute. discriminate.
  - destruct (is_expired Stub.now Stub.order2) eqn:E; [|reflexivity].
    apply (proj1 (@is_expired_iff Stub.now Stub.order2 H)) in E.
    vm_compute in E. exfalso. apply E. reflexivity.
Defined.

(** C3 (as amended).  When the three components of the cost summary of the
    dry run are the decimal texts of naturals [a], [b], [c] that are at most
    [2^53], and [a - b - c] has magnitude at most [2^53], the rebate returned
    is exactly [a - b - c]; so 300, 100, 50 give 150. *)
Theorem rebate_exact_in_safe_range
  (client : SuiClient) (poolOrders : list PoolOrders) (r : CleanUp) (a b c : N) :
  result (createCleanUpTransaction client poolOrders) = Returns r ->
  gasUsed (effects (dev_inspect client (tx r) sender))
    = GasCostSummary.mk (JS.decimal c) (JS.decimal b) (JS.decimal a) ->
  Z.of_N a <= 2 ^ 53 -> Z.of_N b <= 2 ^ 53 -> Z.of_N c <= 2 ^ 53 ->
  Z.abs (Z.of_N a - Z.of_N b - Z.of_N c) <= 2 ^ 53 ->
  rebate r = JS.Num (Z.of_N a - Z.of_N b - Z.of_N c).
Proof.
  intros Hr Hgas Ha Hb Hc Habc.
  unfold createCleanUpTransaction in Hr. cbn in Hr. injection Hr as <-.
  cbn [rebate tx] in *. rewrite Hgas. unfold rebate_of.
  cbn [GasCostSummary.storageRebate GasCostSummary.storageCost
       GasCostSummary.computationCost].
  rewrite !JSFacts.parseInt_decimal.
  rewrite !JSFacts.round_double_exact by (rewrite Z.abs_eq; lia).
  rewrite JSFacts.sub_exact by lia.
  apply JSFacts.sub_exact. exact Habc.
Qed.

Lemma rebate_exact_in_safe_range_witness :
  exists r,
    result (createCleanUpTransaction Stub.client [Stub.quiet_pool]) = Returns r /\
    rebate r = JS.Num 150.
Proof.
  eexists. split; [reflexivity|].
  apply (@rebate_exact_in_safe_range Stub.client [Stub.quiet_pool] _ 300 100 50);
    try reflexivity; vm_compute; discriminate.
Defined.

(** C3 as stated fails beyond the doubles: a storage rebate of [2^53 + 1]
    with no costs yields [2^53]. *)
Lemma rebate_rounds_counterexample :
  exists r,
    result (createCleanUpTransaction Stub.rounding_client []) = Returns r /\
    gasUsed (effects (dev_inspect Stub.rounding_client (tx r) sender))
      = GasCostSummary.mk "0" "0" "9007199254740993" /\
    rebate r = JS.Num 9007199254740992 /\
    rebate r <> JS.Num (9007199254740993 - 0 - 0).
Proof.
  eexists. split; [reflexivity|]. split; [vm_compute; reflexivity|].
  split; [vm_compute; reflexivity|]. vm_compute. discriminate.
Qed.

(** C4.  When every id of the input either is answered with an error marker,
    or with a payload that is not a move object, or with a move object that
    decodes as a queue node, [getOrders] returns, in input order, the order of
    each id of the third kind and nothing for the others: an id that is gone
    fails neither its chunk nor the batch. *)
Theorem getOrders_omits_missing_ids
  (client : SuiClient) (ids : list JsId) (outs : list (option BCS.Order.t)) :
  Forall2 (lookup client) ids outs ->
  result (getOrders client ids) = Returns (defined outs).
Proof.
  intros H. rewrite ResolverFacts.result_getOrders.
  now rewrite (ResolverFacts.lookup_map_outcome H).
Qed.

Lemma getOrders_omits_missing_ids_witness :
  Forall2 (lookup Stub.client)
    [Some Stub.node1; Some (Stub.oid 99); Some Stub.node3]
    [Some Stub.order1; None; Some Stub.order3] /\
  result (getOrders Stub.client
            [Some Stub.node1; Some (Stub.oid 99); Some Stub.node3])
  = Returns [Stub.order1; Stub.order3].
Proof.
  assert (H : Forall2 (lookup Stub.client)
                [Some Stub.node1; Some (Stub.oid 99); Some Stub.node3]
                [Some Stub.order1; None; Some Stub.order3]).
  { constructor; [|constructor; [|constructor; [|constructor]]].
    - apply (@lookup_order Stub.client (Some Stub.node1)
               (Stub.node_bytes Stub.node1 Stub.order1)
               (BCS.Field.mk Stub.node1 1%N (BCS.Node.mk [] [] Stub.order1)));
        vm_compute; reflexivity.
    - apply (@lookup_error Stub.client (Some (Stub.oid 99)) notExists).
      vm_compute. reflexivity.
    - apply (@lookup_order Stub.client (Some Stub.node3)
               (Stub.node_bytes Stub.node3 Stub.order3)
               (BCS.Field.mk Stub.node3 3%N (BCS.Node.mk [] [] Stub.order3)));
        vm_compute; reflexivity. }
  split; [exact H|]. exact (getOrders_omits_missing_ids H).
Defined.

(** C5.  [retrieveExpiredOrders] fails with [Error('Invalid pool data type')]
    exactly when the pool's payload is present and is not a move object.
    When the payload is a move object, no [Error] is raised whatever happens,
    and the call ends as the reconstruction of the pool's orders ends: when
    that returns the orders, the call returns those of them that are
    expired. *)
Theorem retrieveExpiredOrders_InvalidPoolData_iff
  (client : SuiClient) (fuel : nat) (now : Z) (poolId : ObjectId) :
  (result (retrieveExpiredOrders client fuel now poolId)
     = Throws (Error "Invalid pool data type") <->
   exists raw, payload (object_response client (Some poolId)) = Some raw /\
               forall bcsBytes, raw <> moveObject bcsBytes) /\
  (forall bcsBytes,
     payload (object_response client (Some poolId)) = Some (moveObject bcsBytes) ->
     (forall message,
        result (retrieveExpiredOrders client fuel now poolId)
          <> Throws (Error message)) /\
     result (retrieveExpiredOrders client fuel now poolId)
       = match result (reconstruct client fuel bcsBytes) with
         | Returns orders => Returns (filter (is_expired now) orders)
         | Throws e => Throws e
         | Pending => Pending
         end).
Proof.
  unfold retrieveExpiredOrders. rewrite RpcFacts.result_bind.
  cbn [result getObject snd].
  destruct (payload (object_response client (Some poolId))) as [[buf|]|].
  - assert (Hno : forall message,
               result (bind (reconstruct client fuel buf)
                         (fun orders => ret (filter (is_expired now) orders)))
               <> Throws (Error message)).
    { intros message H.
      apply ReconstructFacts.result_bind_throws in H as [H|(orders & _ & H)];
        [|discriminate].
      apply ReconstructFacts.reconstruct_throws in H as [H|H]; discriminate. }
    split.
    + split; [intros H; now apply Hno in H|].
      intros (raw & [= <-] & Hraw). now destruct (Hraw buf).
    + intros bcsBytes [= <-]. split; [exact Hno|].
      rewrite RpcFacts.result_bind.
      now destruct (result (reconstruct client fuel buf)).
  - split; [|discriminate]. split; [|reflexivity].
    intros _. exists package. split; [reflexivity|discriminate].
  - split; [|discriminate]. split; [discriminate|].
    intros (raw & H & _). discriminate.
Qed.

Lemma retrieveExpiredOrders_InvalidPoolData_iff_witness :
  payload (object_response Stub.client (Some Stub.pool_id))
    = Some (moveObject (@BCS.ser _ (BCS.codec BCS.T_Pool) Stub.the_pool)) /\
  result (reconstruct Stub.client 1 (@BCS.ser _ (BCS.codec BCS.T_Pool) Stub.the_pool))
    = Returns [Stub.order1; Stub.order2; Stub.order3] /\
  result (retrieveExpiredOrders Stub.client 1 Stub.now Stub.pool_id)
    = Returns [Stub.order1; Stub.order3].
Proof.
  assert (H : payload (object_response Stub.client (Some Stub.pool_id))
              = Some (moveObject (@BCS.ser _ (BCS.codec BCS.T_Pool) Stub.the_pool)))
    by (vm_compute; reflexivity).
  split; [exact H|]. split; [vm_compute; reflexivity|].
  destruct (retrieveExpiredOrders_InvalidPoolData_iff
              Stub.client 1 Stub.now Stub.pool_id) as [_ Hmove].
  destruct (Hmove _ H) as [_ ->]. vm_compute. reflexivity.
Defined.

(** C6.  Against a source that serves the finite sequence of pages [ps], one
    call of the page loop, given room for the follow-up requests, sends one
    request per page (the first without cursor, each later one with the
    cursor of the response before it) and gathers the items of all pages in
    response order.  [getAllDFPages] returns them less the entries without
    object id, hence all of them when every entry has one;
    [retrieveAllPools] returns them decoded.  A first page whose flag is
    unset is the case of a single page: one request, whatever the page
    holds. *)
Theorem pagination_complete (client : SuiClient) (fuel : nat) :
  (forall parentId ps,
     serves (dynamic_fields_page client parentId) None ps ->
     (List.length ps <= S fuel)%nat ->
     all_pages (getDynamicFields client parentId) fuel
       = (map (GetDynamicFields parentId) (cursors ps), Returns (items ps)) /\
     getAllDFPages client fuel parentId
       = (map (GetDynamicFields parentId) (cursors ps),
          Returns (filter has_objectId (items ps))) /\
     (Forall (fun node => DynamicFieldInfo.objectId node <> None) (items ps) ->
      getAllDFPages client fuel parentId
        = (map (GetDynamicFields parentId) (cursors ps), Returns (items ps)))) /\
  (forall ps,
     serves (events_page client PoolCreated_type) None ps ->
     (List.length ps <= S fuel)%nat ->
     all_pages (queryEvents client PoolCreated_type) fuel
       = (map (QueryEvents PoolCreated_type) (cursors ps), Returns (items ps)) /\
     retrieveAllPools client fuel
       = (map (QueryEvents PoolCreated_type) (cursors ps),
          map_outcome
            (fun event => bcs_de BCS.T_PoolCreated (SuiEvent.bcs event))
            (items ps))) /\
  (forall parentId,
     Page.hasNextPage (dynamic_fields_page client parentId None) = false ->
     getAllDFPages client fuel parentId
       = ([GetDynamicFields parentId None],
          Returns (filter has_objectId
                     (Page.data (dynamic_fields_page client parentId None))))).
Proof.
  split; [|split].
  - intros parentId ps Hps Hlen. split; [|split].
    + exact (PageFacts.all_pages_serves (GetDynamicFields parentId)
               (getDynamicFields client parentId) (fun c => eq_refl) Hps Hlen).
    + exact (PageFacts.getAllDFPages_serves client parentId Hps Hlen).
    + intros Hall. rewrite (PageFacts.getAllDFPages_serves client parentId Hps Hlen).
      now rewrite (PageFacts.filter_has_objectId Hall).
  - intros ps Hps Hlen. split.
    + exact (PageFacts.all_pages_serves (QueryEvents PoolCreated_type)
               (queryEvents client PoolCreated_type) (fun c => eq_refl) Hps Hlen).
    + exact (PageFacts.retrieveAllPools_serves client Hps Hlen).
  - intros parentId Hlast.
    rewrite (@PageFacts.getAllDFPages_serves client fuel parentId
               [dynamic_fields_page client parentId None]).
    + unfold items. cbn. now rewrite app_nil_r.
    + now constructor.
    + cbn. lia.
Qed.

Lemma pagination_complete_witness :
  serves (dynamic_fields_page Stub.paged_client (Stub.oid 0)) None
    (map Stub.four_pages [None; Some "a"; Some "b"; Some "c"]%string) /\
  map (fun p => List.length (Page.data p))
    (map Stub.four_pages [None; Some "a"; Some "b"; Some "c"]%string)
    = [3; 5; 0; 2]%nat /\
  getAllDFPages Stub.paged_client 3 (Stub.oid 0)
    = (map (GetDynamicFields (Stub.oid 0)) [None; Some "a"; Some "b"; Some "c"]%string,
       Returns (map (fun n => Stub.entry (Stub.oid n))
                  [1; 2; 3; 4; 5; 6; 7; 8; 9; 10]%N)).
Proof.
  assert (H : serves (dynamic_fields_page Stub.paged_client (Stub.oid 0)) None
                (map Stub.four_pages [None; Some "a"; Some "b"; Some "c"]%string)).
  { apply (@serves_more _ _ Stub.four_pages None); [reflexivity|].
    apply (@serves_more _ _ Stub.four_pages (Some "a"%string)); [reflexivity|].
    apply (@serves_more _ _ Stub.four_pages (Some "b"%string)); [reflexivity|].
    apply (@serves_last _ _ Stub.four_pages (Some "c"%string)). reflexivity. }
  split; [exact H|]. split; [reflexivity|].
  destruct (pagination_complete Stub.paged_client 3) as [Hdf _].
  destruct (Hdf (Stub.oid 0) _ H) as (_ & -> & _); [cbn; lia|].
  vm_compute. reflexivity.
Defined.

(** C7.  [chunks ids 50] cuts the ids into consecutive chunks whose
    concatenation is the input, all of 50 ids but possibly the last, which
    holds the remainder.  Whenever every id is answered with an error
    marker, with a payload that is not a move object, or with a queue node
    that decodes, [getOrders] sends exactly one multi-id lookup per chunk, in
    chunk order and with the chunk as its ids, and returns.  In every other
    case the lookups it sends are a prefix of that sequence, and all of it
    if the call returns. *)
Theorem getOrders_chunking (client : SuiClient) (ids : list JsId) :
  exists cs,
    chunks ids 50 = Returns cs /\
    concat cs = ids /\
    map (@List.length JsId) cs = chunk_sizes (List.length ids) 50 /\
    (forall outs,
       Forall2 (lookup client) ids outs ->
       getOrders client ids = (map MultiGetObjects cs, Returns (defined outs))) /\
    (exists k, requests (getOrders client ids)
               = map MultiGetObjects (firstn k cs)) /\
    (forall orders,
       result (getOrders client ids) = Returns orders ->
       requests (getOrders client ids) = map MultiGetObjects cs).
Proof.
  destruct (@ChunkFacts.chunks_spec _ ids 50 ltac:(lia)) as (cs & Hcs & Hcat & Hlen).
  exists cs. split; [exact Hcs|]. split; [exact Hcat|]. split; [exact Hlen|].
  split; [|split].
  - intros outs Houts.
    assert (Hres : result (getOrders client ids) = Returns (defined outs)).
    { rewrite ResolverFacts.result_getOrders.
      now rewrite (ResolverFacts.lookup_map_outcome Houts). }
    pose proof (ResolverFacts.requests_getOrders client Hcs Hres) as Hreq.
    destruct (getOrders client ids) as [log o]. cbn in Hres, Hreq.
    now rewrite Hres, Hreq.
  - exact (ResolverFacts.requests_getOrders_prefix client Hcs).
  - intros orders. exact (ResolverFacts.requests_getOrders client Hcs).
Qed.

Lemma getOrders_chunking_witness :
  List.length Stub.many_ids = 130%nat /\
  Forall2 (lookup Stub.client) Stub.many_ids
    (Some Stub.order1 :: repeat None 128 ++ [Some Stub.order3]) /\
  exists cs,
    chunks Stub.many_ids 50 = Returns cs /\
    map (@List.length JsId) cs = [50; 50; 30]%nat /\
    getOrders Stub.client Stub.many_ids
    = (map MultiGetObjects cs, Returns [Stub.order1; Stub.order3]).
Proof.
  assert (H : Forall2 (lookup Stub.client) Stub.many_ids
                (Some Stub.order1 :: repeat None 128 ++ [Some Stub.order3])).
  { unfold Stub.many_ids. cbn [repeat app map seq].
    constructor.
    { apply (@lookup_order Stub.client (Some Stub.node1)
               (Stub.node_bytes Stub.node1 Stub.order1)
               (BCS.Field.mk Stub.node1 1%N (BCS.Node.mk [] [] Stub.order1)));
        vm_compute; reflexivity. }
    repeat (constructor;
            [apply (@lookup_error Stub.client _ notExists);
             vm_compute; reflexivity|]).
    constructor; [|constructor].
    apply (@lookup_order Stub.client (Some Stub.node3)
             (Stub.node_bytes Stub.node3 Stub.order3)
             (BCS.Field.mk Stub.node3 3%N (BCS.Node.mk [] [] Stub.order3)));
      vm_compute; reflexivity. }
  split; [reflexivity|]. split; [exact H|].
  destruct (getOrders_chunking Stub.client Stub.many_ids)
    as (cs & Hcs & _ & Hlen & Hall & _).
  exists cs. split; [exact Hcs|]. split; [exact Hlen|].
  exact (Hall _ H).
Defined.

(** C9.  For every type name built from the registered structs (Order,
    Table, Field<K,V>, TickLevel, LinkedTable, Node<V>, Leaf<V>, CritbitTree,
    Pool, PoolCreated) and the built-in types, and every in-range value of
    that type, decoding the encoding of the value gives the value back; and
    so does reading it from a buffer that goes on after it, which is left
    at the first byte after the value. *)
Theorem bcs_roundtrip (t : BCS.type_name) (v : BCS.value_of t) :
  @BCS.in_range _ (BCS.codec t) v ->
  @BCS.de _ (BCS.codec t) (@BCS.ser _ (BCS.codec t) v) = Some v /\
  forall rest,
    @BCS.read _ (BCS.codec t) (@BCS.ser _ (BCS.codec t) v ++ rest)
    = Some (v, rest).
Proof.
  intros Hv. split.
  - apply BCSFacts.de_ser; [apply BCSFacts.Lawful_codec|exact Hv].
  - intros rest. apply BCSFacts.Lawful_codec. exact Hv.
Qed.

Lemma bcs_roundtrip_witness :
  @BCS.in_range _ (BCS.codec (BCS.T_Field BCS.T_u64 (BCS.T_Node BCS.T_Order)))
    (BCS.Field.mk Stub.node1 1%N (BCS.Node.mk [] [7%N] Stub.order1)) /\
  @BCS.de _ (BCS.codec (BCS.T_Field BCS.T_u64 (BCS.T_Node BCS.T_Order)))
    (@BCS.ser _ (BCS.codec (BCS.T_Field BCS.T_u64 (BCS.T_Node BCS.T_Order)))
       (BCS.Field.mk Stub.node1 1%N (BCS.Node.mk [] [7%N] Stub.order1)))
  = Some (BCS.Field.mk Stub.node1 1%N (BCS.Node.mk [] [7%N] Stub.order1)).
Proof.
  assert (H : @BCS.in_range _
                (BCS.codec (BCS.T_Field BCS.T_u64 (BCS.T_Node BCS.T_Order)))
                (BCS.Field.mk Stub.node1 1%N (BCS.Node.mk [] [7%N] Stub.order1))).
  { cbn; repeat split; try reflexivity; repeat constructor. }
  split; [exact H|].
  exact (proj1 (@bcs_roundtrip
                  (BCS.T_Field BCS.T_u64 (BCS.T_Node BCS.T_Order)) _ H)).
Defined.

(** C10.  Every entry [getAllDFPages] returns has a defined object id: what
    it returns is the gathered entries with those lacking an id filtered
    out.  Hence the ids collected from it are all defined, and no multi-id
    lookup that [retrieveExpiredOrders] sends names an undefined id. *)
Theorem getAllDFPages_objectIds_defined
  (client : SuiClient) (fuel : nat) (parentId : ObjectId) :
  (forall nodes,
     result (getAllDFPages client fuel parentId) = Returns nodes ->
     Forall (fun node => DynamicFieldInfo.objectId node <> None) nodes /\
     Forall (fun id : JsId => id <> None) (map DynamicFieldInfo.objectId nodes) /\
     exists data,
       result (all_pages (getDynamicFields client parentId) fuel) = Returns data /\
       nodes = filter has_objectId data) /\
  (forall now poolId,
     Forall ids_defined (requests (retrieveExpiredOrders client fuel now poolId))).
Proof.
  split.
  - intros nodes H. split; [|split].
    + exact (PageFacts.getAllDFPages_defined client fuel parentId H).
    + exact (ReconstructFacts.getAllDFPages_objectIds client fuel parentId H).
    + exact (PageFacts.getAllDFPages_filtered client fuel parentId H).
  - intros now poolId.
    apply ReconstructFacts.retrieveExpiredOrders_ids_defined.
Qed.

Lemma getAllDFPages_objectIds_defined_witness :
  Page.data (dynamic_fields_page Stub.holey_client Stub.bid_queue None)
    = [Stub.entry Stub.node1; DynamicFieldInfo.mk None; Stub.entry Stub.node2] /\
  result (getAllDFPages Stub.holey_client 0 Stub.bid_queue)
    = Returns [Stub.entry Stub.node1; Stub.entry Stub.node2] /\
  Forall (fun id : JsId => id <> None)
    (map DynamicFieldInfo.objectId [Stub.entry Stub.node1; Stub.entry Stub.node2]).
Proof.
  assert (H : result (getAllDFPages Stub.holey_client 0 Stub.bid_queue)
              = Returns [Stub.entry Stub.node1; Stub.entry Stub.node2])
    by (vm_compute; reflexivity).
  split; [reflexivity|]. split; [exact H|].
  destruct (getAllDFPages_objectIds_defined Stub.holey_client 0 Stub.bid_queue)
    as [Hnodes _].
  exact (proj1 (proj2 (Hnodes _ H))).
Defined.

End Claims.

(** ** More on the decoder *)

Module BCSMoreFacts.
Import BCS BCSMore.

Lemma take_bytes_inv (k : nat) (buf a rest : bytes) :
  take_bytes k buf = Some (a, rest) -> buf = a ++ rest /\ List.length a = k.
Proof.
  unfold take_bytes. destruct (Nat.leb_spec k (List.length buf)); [|discriminate].
  intros [= <- <-]. split; [now rewrite firstn_skipn|].
  apply firstn_length_le. assumption.
Qed.

Lemma take_bytes_none (k : nat) (buf : bytes) :
  take_bytes k buf = None -> List.length buf < k.
Proof.
  unfold take_bytes. now destruct (Nat.leb_spec k (List.length buf)).
Qed.

Lemma le_value_bound (bs : bytes) :
  (le_value bs < 256 ^ N.of_nat (List.length bs))%N.
Proof.
  induction bs as [|b bs IH]; [cbn; lia|].
  cbn [le_value List.length]. rewrite Nat2N.inj_succ, N.pow_succ_r'.
  pose proof (Byte.to_N_bounded b). lia.
Qed.

Lemma Sound_le (k : nat) (bound : N) :
  (256 ^ N.of_nat k = bound)%N ->
  forall buf v rest, read_le k buf = Some (v, rest) ->
    (v < bound)%N /\ exists used, buf = used ++ rest.
Proof.
  intros Hb buf v rest. unfold read_le.
  destruct (take_bytes k buf) as [[a r]|] eqn:E; [|discriminate].
  intros [= <- <-]. apply take_bytes_inv in E as [-> Hlen]. split; [|eauto].
  rewrite <- Hb, <- Hlen. apply le_value_bound.
Qed.

#[export] Instance Sound_u64 : Sound Bcs_u64.
Proof. exact (@Sound_le 8 (2 ^ 64) eq_refl). Qed.

#[export] Instance Sound_u8 : Sound Bcs_u8.
Proof. exact (@Sound_le 1 (2 ^ 8) eq_refl). Qed.

#[export] Instance Sound_bool : Sound Bcs_bool.
Proof.
  intros [|b buf] v rest; cbn; [discriminate|].
  intros [= <- <-]. split; [exact I|]. now exists [b].
Qed.

#[export] Instance Sound_address : Sound Bcs_address.
Proof.
  intros buf v rest H. cbn in H. apply take_bytes_inv in H as [-> Hlen]. eauto.
Qed.

Lemma read_uleb_prefix (buf : bytes) : forall n rest,
  read_uleb buf = Some (n, rest) -> exists used, buf = used ++ rest.
Proof.
  induction buf as [|b buf IH]; intros n rest; cbn [read_uleb]; [discriminate|].
  destruct (Byte.to_N b <? 128)%N.
  - intros [= <- <-]. now exists [b].
  - destruct (read_uleb buf) as [[hi r]|]; [|discriminate].
    intros [= <- <-]. destruct (IH _ _ eq_refl) as [used ->].
    now exists (b :: used).
Qed.

#[export] Instance Sound_string : Sound Bcs_string.
Proof.
  intros buf v rest. cbn [read Bcs_string].
  destruct (read_uleb buf) as [[len r]|] eqn:E; [|discriminate].
  destruct (take_bytes (N.to_nat len) r) as [[bs r']|] eqn:E'; [|discriminate].
  intros [= <- <-]. split; [exact I|].
  apply read_uleb_prefix in E as [used ->].
  apply take_bytes_inv in E' as [-> _].
  exists (used ++ bs). now rewrite app_assoc.
Qed.

Lemma read_n_sound {A} (c : Bcs A) (HS : Sound c) (k : nat) :
  forall buf l rest, read_n c k buf = Some (l, rest) ->
    Forall (@in_range A c) l /\ exists used, buf = used ++ rest.
Proof.
  induction k as [|k IH]; intros buf l rest; cbn [read_n].
  - intros [= <- <-]. split; [constructor|now exists []].
  - destruct (@read A c buf) as [[x r]|] eqn:E; [|discriminate].
    destruct (read_n c k r) as [[xs r']|] eqn:E'; [|discriminate].
    intros [= <- <-]. apply HS in E as [Hx [u1 ->]].
    apply IH in E' as [Hxs [u2 ->]]. split; [now constructor|].
    exists (u1 ++ u2). now rewrite app_assoc.
Qed.

#[export] Instance Sound_vector {A} (c : Bcs A) (HS : Sound c) :
  Sound (Bcs_vector c).
Proof.
  intros buf l rest. cbn [read Bcs_vector].
  destruct (read_uleb buf) as [[len r]|] eqn:E; [|discriminate].
  intros H. apply read_uleb_prefix in E as [u1 ->].
  apply (read_n_sound HS) in H as [Hl [u2 ->]]. split; [exact Hl|].
  exists (u1 ++ u2). now rewrite app_assoc.
Qed.

#[export] Instance Sound_pair {A B} (cA : Bcs A) (cB : Bcs B)
  (HA : Sound cA) (HB : Sound cB) : Sound (Bcs_pair cA cB).
Proof.
  intros buf [a b] rest. cbn [read Bcs_pair].
  destruct (@read A cA buf) as [[a' r]|] eqn:Ea; [|discriminate].
  destruct (@read B cB r) as [[b' r']|] eqn:Eb; [|discriminate].
  intros [= <- <- <-]. apply HA in Ea as [Ha [u1 ->]].
  apply HB in Eb as [Hb [u2 ->]]. split; [now split|].
  exists (u1 ++ u2). now rewrite app_assoc.
Qed.

Lemma Sound_struct {T R} (fields : Bcs T) (unpack : R -> T) (pack : T -> R) :
  Sound fields -> (forall t, unpack (pack t) = t) ->
  Sound (Bcs_struct fields unpack pack).
Proof.
  intros HF Hunpack buf r rest. cbn [read Bcs_struct in_range].
  destruct (@read T fields buf) as [[t r']|] eqn:E; [|discriminate].
  intros [= <- <-]. rewrite Hunpack. exact (HF _ _ _ E).
Qed.

Ltac sound_struct :=
  apply Sound_struct;
  [typeclasses eauto | intros t; repeat (destruct t as [? t]); reflexivity].

#[export] Instance Sound_Order : Sound Bcs_Order.
Proof. sound_struct. Qed.
#[export] Instance Sound_Table : Sound Bcs_Table.
Proof. sound_struct. Qed.
#[export] Instance Sound_Field {K V} (cK : Bcs K) (cV : Bcs V)
  (HK : Sound cK) (HV : Sound cV) : Sound (Bcs_Field cK cV).
Proof. sound_struct. Qed.
#[export] Instance Sound_LinkedTable : Sound Bcs_LinkedTable.
Proof. sound_struct. Qed.
#[export] Instance Sound_TickLevel : Sound Bcs_TickLevel.
Proof. sound_struct. Qed.
#[export] Instance Sound_Node {V} (cV : Bcs V) (HV : Sound cV) :
  Sound (Bcs_Node cV).
Proof. sound_struct. Qed.
#[export] Instance Sound_Leaf {V} (cV : Bcs V) (HV : Sound cV) :
  Sound (Bcs_Leaf cV).
Proof. sound_struct. Qed.
#[export] Instance Sound_CritbitTree : Sound Bcs_CritbitTree.
Proof. sound_struct. Qed.
#[export] Instance Sound_Pool : Sound Bcs_Pool.
Proof. sound_struct. Qed.
#[export] Instance Sound_PoolCreated : Sound Bcs_PoolCreated.
Proof. sound_struct. Qed.

Lemma Sound_codec (t : type_name) : Sound (codec t).
Proof. induction t; cbn [codec]; typeclasses eauto. Qed.

Lemma de_in_range (t : type_name) (buf : bytes) (v : value_of t) :
  @de _ (codec t) buf = Some v -> @in_range _ (codec t) v.
Proof.
  unfold de. destruct (@read _ (codec t) buf) as [[v' rest]|] eqn:E; [|discriminate].
  intros [= <-]. exact (proj1 (Sound_codec t _ E)).
Qed.

(** Widths *)

Lemma Fixed_le (k : nat) : forall buf,
  match read_le k buf with
  | Some (_, rest) => k + List.length rest = List.length buf
  | None => List.length buf < k
  end.
Proof.
  intros buf. unfold read_le. destruct (take_bytes k buf) as [[a r]|] eqn:E.
  - apply take_bytes_inv in E as [-> Hlen]. rewrite length_app. lia.
  - now apply take_bytes_none.
Qed.

#[export] Instance Fixed_u64 : Fixed Bcs_u64 8.
Proof. exact (Fixed_le 8). Qed.

#[export] Instance Fixed_u8 : Fixed Bcs_u8 1.
Proof. exact (Fixed_le 1). Qed.

#[export] Instance Fixed_bool : Fixed Bcs_bool 1.
Proof. intros [|b buf]; cbn; lia. Qed.

#[export] Instance Fixed_address : Fixed Bcs_address 32.
Proof.
  intros buf. cbn [read Bcs_address].
  destruct (take_bytes 32 buf) as [[a r]|] eqn:E.
  - apply take_bytes_inv in E as [-> Hlen]. rewrite length_app. lia.
  - now apply take_bytes_none.
Qed.

#[export] Instance Fixed_pair {A B} (cA : Bcs A) (cB : Bcs B) (n m : nat)
  (HA : Fixed cA n) (HB : Fixed cB m) : Fixed (Bcs_pair cA cB) (n + m).
Proof.
  intros buf. cbn [read Bcs_pair]. specialize (HA buf).
  destruct (@read A cA buf) as [[a r]|]; [|lia].
  specialize (HB r). destruct (@read B cB r) as [[b r']|]; lia.
Qed.

#[export] Instance Fixed_struct {T R} (fields : Bcs T) (unpack : R -> T)
  (pack : T -> R) (n : nat) (HF : Fixed fields n) :
  Fixed (Bcs_struct fields unpack pack) n.
Proof.
  intros buf. cbn [read Bcs_struct]. specialize (HF buf).
  now destruct (@read T fields buf) as [[t r]|].
Qed.

Lemma Fixed_de {A} (c : Bcs A) (n : nat) (HF : Fixed c n) (buf : bytes) :
  @de A c buf = None <-> List.length buf < n.
Proof.
  unfold de. specialize (HF buf).
  destruct (@read A c buf) as [[v r]|]; split; try discriminate; try lia; auto.
Qed.

Lemma Fixed_Order : Fixed Bcs_Order 82.
Proof. change 82 with (8 + (8 + (8 + (8 + (8 + (1 + (32 + (8 + 1)))))))). typeclasses eauto. Qed.

Lemma Fixed_Table : Fixed Bcs_Table 40.
Proof. change 40 with (32 + 8). typeclasses eauto. Qed.

Lemma Fixed_CritbitTree : Fixed Bcs_CritbitTree 120.
Proof.
  change 120 with (8 + (40 + (40 + (8 + (8 + (8 + 8)))))).
  pose proof Fixed_Table. typeclasses eauto.
Qed.

Lemma Fixed_Pool : Fixed Bcs_Pool 360.
Proof.
  change 360 with (32 + (120 + (120 + (8 + (8 + (40 + (8 + (8 + (8 + 8))))))))).
  pose proof Fixed_Table. pose proof Fixed_CritbitTree. typeclasses eauto.
Qed.

End BCSMoreFacts.

(** ** More on the resolver and the reconstruction *)

Module MoreFacts.
Import Rpc Spec SpecMore RpcFacts ChunkFacts ResolverFacts PageFacts ReconstructFacts.
Local Open Scope rpc_scope.

Lemma chop_length {A} (k size : nat) : forall data : list A,
  List.length (chop k size data) = k.
Proof. induction k as [|k IH]; intros data; cbn; [reflexivity|now rewrite IH]. Qed.

Lemma chop_nth {A} (size k : nat) : forall (data : list A) i,
  i < k -> nth i (chop k size data) [] = firstn size (skipn (i * size) data).
Proof.
  induction k as [|k IH]; intros data i Hi; [lia|].
  destruct i as [|i]; cbn [chop nth]; [reflexivity|].
  rewrite IH by lia. rewrite skipn_skipn. f_equal. f_equal. cbn. lia.
Qed.

Lemma chunk_sizes_bounds (n size x : nat) :
  0 < size -> In x (chunk_sizes n size) -> 1 <= x <= size.
Proof.
  intros Hs. unfold chunk_sizes. rewrite in_app_iff. intros [H|H].
  - apply repeat_spec in H. lia.
  - pose proof (Nat.mod_upper_bound n size ltac:(lia)).
    destruct (Nat.eqb_spec (n mod size) 0); [contradiction|].
    destruct H as [<-|[]]. lia.
Qed.

Lemma defined_app {A} (l1 l2 : list (option A)) :
  defined (l1 ++ l2) = defined l1 ++ defined l2.
Proof.
  induction l1 as [|[x|] l1 IH]; cbn; [reflexivity| |assumption].
  now rewrite IH.
Qed.

Lemma map_outcome_returns {A B} (f : A -> outcome B) (l : list A) : forall ys,
  map_outcome f l = Returns ys -> Forall2 (fun x y => f x = Returns y) l ys.
Proof.
  induction l as [|x l IH]; cbn; intros ys.
  - intros [= <-]. constructor.
  - destruct (f x) as [y| |] eqn:E; try discriminate.
    destruct (map_outcome f l) as [ys'| |]; try discriminate.
    intros [= <-]. constructor; auto.
Qed.

Lemma map_outcome_poisoned {A B} (f : A -> outcome B) (l : list A) x e0 :
  (forall a, f a <> Pending) -> In x l -> f x = Throws e0 ->
  exists e, map_outcome f l = Throws e.
Proof.
  intros Hf. induction l as [|a l IH]; [contradiction|].
  intros Hin Hx. cbn [map_outcome].
  destruct (f a) as [y|e|] eqn:E; [|eauto|now apply Hf in E].
  destruct Hin as [->|Hin]; [congruence|].
  destruct (IH Hin Hx) as [e ->]. eauto.
Qed.

Lemma resolve_order_settles response : resolve_order response <> Pending.
Proof.
  unfold resolve_order, resolve, bcs_de.
  destruct (SuiObjectResponse.error response); [discriminate|].
  destruct (payload response) as [[buf|]|]; try discriminate.
  destruct (BCS.de buf); discriminate.
Qed.

Lemma resolve_order_lookup (client : SuiClient) (id : JsId) out :
  resolve_order (object_response client id) = Returns out ->
  lookup client id out.
Proof.
  unfold resolve_order, resolve, bcs_de.
  destruct (SuiObjectResponse.error (object_response client id)) as [e|] eqn:He.
  - intros [= <-]. eapply lookup_error. exact He.
  - destruct (payload (object_response client id)) as [[buf|]|] eqn:Hp;
      try discriminate.
    + destruct (BCS.de buf) as [node|] eqn:Hd; [|discriminate].
      intros [= <-]. eapply lookup_order; eassumption.
    + intros [= <-]. now apply lookup_package.
Qed.

Lemma leaf_lookup_resolve (client : SuiClient) (id : JsId) out :
  leaf_lookup client id out ->
  resolve_tickLevel (object_response client id) = Returns out.
Proof.
  unfold resolve_tickLevel, resolve, bcs_de.
  intros [e He|He Hp|bcsBytes leaf He Hp Hd].
  - now rewrite He.
  - now rewrite He, Hp.
  - now rewrite He, Hp, Hd.
Qed.

Lemma leaf_lookup_map_outcome (client : SuiClient) ids outs :
  Forall2 (leaf_lookup client) ids outs ->
  map_outcome resolve_tickLevel (map (object_response client) ids) = Returns outs.
Proof.
  induction 1 as [|id out ids outs Hl _ IH]; [reflexivity|].
  cbn. now rewrite (leaf_lookup_resolve Hl), IH.
Qed.

Lemma all_result_returns {A} (promises : list (M A)) (ys : list A) :
  Forall2 (fun p y => result p = Returns y) promises ys ->
  result (all promises) = Returns ys.
Proof.
  induction 1 as [|p y ps ys Hp _ IH]; [reflexivity|].
  cbn [all result snd]. fold (result (all ps)). now rewrite Hp, IH.
Qed.

Lemma all_poisoned {A} (promises : list (M A)) p e0 :
  In p promises -> result p = Throws e0 ->
  exists e, result (all promises) = Throws e.
Proof.
  induction promises as [|q ps IH]; [contradiction|].
  intros Hin Hp. cbn [all result snd]. fold (result (all ps)).
  destruct Hin as [->|Hin].
  - rewrite Hp. eauto.
  - destruct (IH Hin Hp) as [e He]. rewrite He.
    destruct (result q); eauto.
Qed.

Lemma Forall2_map_l {A B C} (R : B -> C -> Prop) (f : A -> B) l ys :
  Forall2 (fun x y => R (f x) y) l ys -> Forall2 R (map f l) ys.
Proof. induction 1; cbn; constructor; auto. Qed.

Lemma Forall2_map_l_inv {A B C} (R : B -> C -> Prop) (f : A -> B) l : forall ys,
  Forall2 R (map f l) ys -> Forall2 (fun x y => R (f x) y) l ys.
Proof.
  induction l as [|x l IH]; cbn; intros ys H; inversion H; subst; constructor; auto.
Qed.

Lemma Forall2_In_r {A B} (R : A -> B -> Prop) l l' y :
  Forall2 R l l' -> In y l' -> exists x, In x l /\ R x y.
Proof.
  induction 1 as [|x y' l l' Hxy _ IH]; [contradiction|].
  intros [->|Hin].
  - exists x. split; [now left|exact Hxy].
  - destruct (IH Hin) as (x' & Hx' & HR). exists x'. split; [now right|exact HR].
Qed.

Section WithClient.
Variable client : SuiClient.

Lemma getOrders_nil : getOrders client [] = ([], Returns []).
Proof. reflexivity. Qed.

Lemma result_getOrders_app (ids1 ids2 : list JsId) :
  result (getOrders client (ids1 ++ ids2)) =
  match result (getOrders client ids1) with
  | Returns o1 =>
      match result (getOrders client ids2) with
      | Returns o2 => Returns (o1 ++ o2)
      | Throws e => Throws e
      | Pending => Pending
      end
  | Throws e => Throws e
  | Pending => Pending
  end.
Proof.
  rewrite !result_getOrders, map_app, map_outcome_app.
  destruct (map_outcome resolve_order (map (object_response client) ids1));
    [|reflexivity..].
  destruct (map_outcome resolve_order (map (object_response client) ids2));
    [|reflexivity..].
  now rewrite defined_app.
Qed.

Lemma getOrders_returns_lookup (ids : list JsId) orders :
  result (getOrders client ids) = Returns orders ->
  exists outs, Forall2 (lookup client) ids outs /\ orders = defined outs.
Proof.
  rewrite result_getOrders.
  destruct (map_outcome resolve_order _) as [outs| |] eqn:E; try discriminate.
  intros [= <-]. exists outs. split; [|reflexivity].
  apply map_outcome_returns in E. apply Forall2_map_l_inv in E.
  eapply Forall2_impl; [|exact E]. intros id out. apply resolve_order_lookup.
Qed.

Lemma lookup_in_range (id : JsId) order :
  lookup client id (Some order) -> @BCS.in_range _ BCS.Bcs_Order order.
Proof.
  intros H. inversion H as [| |buf node He Hp Hd Heq]; subst.
  apply BCSMoreFacts.de_in_range in Hd. cbn in Hd. cbn. tauto.
Qed.

Lemma defined_In {A} (outs : list (option A)) x :
  In x (defined outs) -> In (Some x) outs.
Proof.
  induction outs as [|[y|] outs IH]; cbn; [tauto| |auto].
  intros [->|H]; auto.
Qed.

Lemma getAllDFPages_single fuel parentId :
  Page.hasNextPage (dynamic_fields_page client parentId None) = false ->
  getAllDFPages client fuel parentId
  = ([GetDynamicFields parentId None],
     Returns (filter has_objectId
                (Page.data (dynamic_fields_page client parentId None)))).
Proof.
  intros Hlast.
  rewrite (@getAllDFPages_serves client fuel parentId
             [dynamic_fields_page client parentId None]).
  - unfold items. cbn. now rewrite app_nil_r.
  - now constructor.
  - cbn. lia.
Qed.

Lemma getAllDFPages_stuck_loop fuel parentId :
  Page.hasNextPage (dynamic_fields_page client parentId None) = true ->
  Page.nextCursor (dynamic_fields_page client parentId None) = None ->
  getAllDFPages client fuel parentId
  = (repeat (GetDynamicFields parentId None) (S fuel), Pending).
Proof.
  intros Hflag Hcursor.
  assert (Hloop : forall fuel data,
            next_pages (getDynamicFields client parentId) fuel
              (dynamic_fields_page client parentId None) data
            = (repeat (GetDynamicFields parentId None) fuel, Pending)).
  { clear fuel. induction fuel as [|fuel IH]; intros data; cbn [next_pages].
    - now rewrite Hflag.
    - rewrite Hflag, Hcursor. unfold getDynamicFields at 1. cbn [bind].
      now rewrite IH. }
  unfold getAllDFPages, all_pages. unfold getDynamicFields at 1. cbn [bind].
  now rewrite Hloop.
Qed.

Lemma bcs_de_prefix (t : BCS.type_name) (v : BCS.value_of t) (more : bytes) :
  @BCS.in_range _ (BCS.codec t) v ->
  bcs_de t (@BCS.ser _ (BCS.codec t) v ++ more) = Returns v.
Proof.
  intros Hv. unfold bcs_de, BCS.de.
  now rewrite (BCSFacts.Lawful_codec t v more Hv).
Qed.

Lemma events_decode (events : list SuiEvent.t) (pools : list BCS.PoolCreated.t) :
  Forall2 (fun event v =>
             @BCS.in_range _ (BCS.codec BCS.T_PoolCreated) v /\
             exists more,
               SuiEvent.bcs event
               = @BCS.ser _ (BCS.codec BCS.T_PoolCreated) v ++ more)
          events pools ->
  map_outcome (fun event => bcs_de BCS.T_PoolCreated (SuiEvent.bcs event)) events
  = Returns pools.
Proof.
  induction 1 as [|event v events pools [Hv [more Hb]] _ IH]; [reflexivity|].
  cbn [map_outcome]. rewrite Hb.
  rewrite (@bcs_de_prefix BCS.T_PoolCreated v more Hv). now rewrite IH.
Qed.

Lemma queues_promises fuel (levels : list BCS.TickLevel.t)
  (queues : list (list DynamicFieldInfo.t)) :
  Forall2 (fun level nodes =>
             result (getAllDFPages client fuel (queue_of level)) = Returns nodes)
          levels queues ->
  Forall2 (fun p y => result p = Returns y)
    (map (fun tickLevel =>
            limit (data <- getAllDFPages client fuel
                             (BCS.LinkedTable.id (BCS.TickLevel.open_orders tickLevel)) ;;
                   ret (map DynamicFieldInfo.objectId data)))
         levels)
    (map (map DynamicFieldInfo.objectId) queues).
Proof.
  induction 1 as [|level nodes levels queues H _ IH]; cbn [map]; constructor;
    [|exact IH].
  unfold limit. rewrite result_bind. unfold queue_of in H. now rewrite H.
Qed.

Lemma reconstruct_returns_all fuel bcsBytes (p : BCS.Pool.t) asks bids levels queues outs :
  @BCS.de _ (BCS.codec BCS.T_Pool) bcsBytes = Some p ->
  result (getAllDFPages client fuel (ask_leaves p)) = Returns asks ->
  result (getAllDFPages client fuel (bid_leaves p)) = Returns bids ->
  Forall2 (leaf_lookup client)
    (map DynamicFieldInfo.objectId (bids ++ asks)) levels ->
  Forall2 (fun level nodes =>
             result (getAllDFPages client fuel (queue_of level)) = Returns nodes)
          (defined levels) queues ->
  Forall2 (lookup client)
    (map DynamicFieldInfo.objectId (concat queues)) outs ->
  result (reconstruct client fuel bcsBytes) = Returns (defined outs).
Proof.
  intros Hde Hasks Hbids Hlevels Hqueues Houts.
  unfold reconstruct, bcs_de. rewrite Hde. run_m.
  unfold ask_leaves in Hasks. rewrite Hasks. run_m.
  unfold bid_leaves in Hbids. rewrite Hbids. run_m.
  destruct (chunks_50 (map DynamicFieldInfo.objectId (bids ++ asks)))
    as (cs & Hcs & Hcat).
  rewrite Hcs. run_m.
  rewrite result_resolve_chunks, Hcat, (leaf_lookup_map_outcome Hlevels).
  cbn [app]. run_m.
  rewrite (all_result_returns (@queues_promises fuel _ _ Hqueues)).
  rewrite <- concat_map, result_getOrders.
  now rewrite (lookup_map_outcome Houts).
Qed.

Section Requests.
Variable P : request -> Prop.
Hypothesis P_object : forall id, P (GetObject id).
Hypothesis P_fields : forall parentId cursor, P (GetDynamicFields parentId cursor).
Hypothesis P_multi : forall ids, P (MultiGetObjects ids).
Hypothesis P_events : forall type cursor, P (QueryEvents type cursor).

Lemma getAllDFPages_requests_P fuel parentId :
  Forall P (requests (getAllDFPages client fuel parentId)).
Proof.
  eapply Forall_impl; [|apply getAllDFPages_requests].
  intros r (parent & c & ->). apply P_fields.
Qed.

Lemma resolve_chunks_requests_P {T}
  (cb : SuiObjectResponse.t -> outcome (option T)) cs acc :
  Forall P (requests (resolve_chunks client cb cs acc)).
Proof.
  destruct (requests_resolve_chunks_prefix client cb cs acc) as [k ->].
  apply Forall_map, Forall_forall. intros chunk _. apply P_multi.
Qed.

Lemma getOrders_requests_P ids :
  Forall P (requests (getOrders client ids)).
Proof.
  destruct (chunks_50 ids) as (cs & Hcs & _).
  destruct (requests_getOrders_prefix client Hcs) as [k ->].
  apply Forall_map, Forall_forall. intros chunk _. apply P_multi.
Qed.

Lemma reconstruct_requests_P fuel bcsBytes :
  Forall P (requests (reconstruct client fuel bcsBytes)).
Proof.
  unfold reconstruct.
  apply requests_bind_Forall; [constructor|]. intros p _.
  apply requests_bind_Forall; [apply getAllDFPages_requests_P|]. intros asks _.
  apply requests_bind_Forall; [apply getAllDFPages_requests_P|]. intros bids _.
  apply requests_bind_Forall.
  { destruct (chunks _ 50); constructor. }
  intros cs _.
  apply requests_bind_Forall; [apply resolve_chunks_requests_P|].
  intros tickLevels _.
  apply requests_bind_Forall; [|intros lists _; apply getOrders_requests_P].
  apply all_requests. apply Forall_map, Forall_forall. intros tickLevel _.
  unfold limit.
  apply requests_bind_Forall; [apply getAllDFPages_requests_P|].
  intros data _. constructor.
Qed.

Lemma retrieveExpiredOrders_requests_P fuel now poolId :
  Forall P (requests (retrieveExpiredOrders client fuel now poolId)).
Proof.
  unfold retrieveExpiredOrders.
  apply requests_bind_Forall; [repeat constructor; apply P_object|].
  intros response _.
  destruct (payload response) as [[bcsBytes|]|]; try constructor.
  apply requests_bind_Forall; [apply reconstruct_requests_P|].
  intros orders _. constructor.
Qed.

Lemma retrieveAllPools_requests_P fuel :
  Forall P (requests (retrieveAllPools client fuel)).
Proof.
  unfold retrieveAllPools.
  apply requests_bind_Forall.
  - apply (@all_pages_requests _ _ (events_page client PoolCreated_type)
             (QueryEvents PoolCreated_type) (queryEvents client PoolCreated_type)
             (fun c => eq_refl)).
    intros c. apply P_events.
  - intros data _. constructor.
Qed.

End Requests.

Lemma main_gather fuel now :
  main client fuel now
  = (pairs <- gather client fuel now ;; createCleanUpTransaction client pairs).
Proof.
  unfold main, gather.
  destruct (retrieveAllPools client fuel) as [log [pools| |]]; cbn [bind];
    try reflexivity.
  destruct (all _) as [log' [pairs| |]]; cbn [bind]; try reflexivity.
  destruct (createCleanUpTransaction client pairs) as [log'' o]. cbn.
  now rewrite app_assoc.
Qed.

Lemma gather_reads fuel now : Forall is_read (requests (gather client fuel now)).
Proof.
  unfold gather.
  apply requests_bind_Forall.
  - apply retrieveAllPools_requests_P. intros; exact I.
  - intros pools _. apply all_requests. apply Forall_map, Forall_forall.
    intros pool _. apply requests_bind_Forall.
    + apply retrieveExpiredOrders_requests_P; intros; exact I.
    + intros e _. constructor.
Qed.

Lemma main_requests fuel now :
  requests (main client fuel now)
  = requests (gather client fuel now) ++
    match result (main client fuel now) with
    | Returns r => [DevInspectTransactionBlock (tx r) sender]
    | _ => []
    end.
Proof.
  rewrite main_gather, requests_bind, result_bind.
  destruct (result (gather client fuel now)); reflexivity.
Qed.

Lemma gather_returns fuel now pairs :
  result (gather client fuel now) = Returns pairs ->
  exists pools,
    result (retrieveAllPools client fuel) = Returns pools /\
    Forall2 (fun created pair =>
               pool pair = created /\
               result (retrieveExpiredOrders client fuel now
                         (BCS.PoolCreated.pool_id created))
               = Returns (expiredOrders pair))
            pools pairs.
Proof.
  unfold gather. intros H.
  apply result_bind_returns in H as (pools & Hpools & H).
  exists pools. split; [exact Hpools|].
  apply all_returns in H. apply Forall2_map_l_inv in H.
  eapply Forall2_impl; [|exact H]. intros created pair Hpair.
  apply result_bind_returns in Hpair as (e & He & Hret).
  injection Hret as <-. now split.
Qed.

Lemma gather_poisoned fuel now pools created e0 :
  result (retrieveAllPools client fuel) = Returns pools ->
  In created pools ->
  result (retrieveExpiredOrders client fuel now (BCS.PoolCreated.pool_id created))
    = Throws e0 ->
  exists e, result (gather client fuel now) = Throws e.
Proof.
  intros Hpools Hin Hthrow. unfold gather. rewrite result_bind, Hpools.
  eapply all_poisoned.
  - apply in_map. exact Hin.
  - cbv beta. rewrite result_bind, Hthrow. reflexivity.
Qed.

Lemma M_pair {A} (m : M A) log o :
  requests m = log -> result m = o -> m = (log, o).
Proof. destruct m. cbn. now intros -> ->. Qed.

Lemma defined_length {A} (outs : list (option A)) :
  List.length (defined outs) <= List.length outs.
Proof. induction outs as [|[x|] outs IH]; cbn; lia. Qed.

End WithClient.

End MoreFacts.

(** ** More on the transaction builder *)

Module TxMoreFacts.
Import Tx Rpc Spec SpecMore TxFacts.

Lemma object_shape (id : ObjectId) (tx : TransactionBlock) :
  exists i ins,
    object id tx = (Input i, mkBlock (inputs tx ++ ins) (transactions tx)) /\
    (ins = [] \/ ins = [Object id]).
Proof.
  unfold object. destruct (find_object id (inputs tx) 0) as [i|].
  - exists i, []. split; [|now left]. rewrite app_nil_r. now destruct tx.
  - exists (List.length (inputs tx)), [Object id]. split; [reflexivity|now right].
Qed.

Lemma filter_pure_map {A} (h : A -> bytes) (l : list A) :
  filter is_pure (map (fun x => Pure (h x)) l) = map (fun x => Pure (h x)) l.
Proof. induction l as [|x l IH]; cbn; [reflexivity|now rewrite IH]. Qed.

Lemma add_clean_up_shape (poolOrder : PoolOrders) (tx : TransactionBlock) :
  let tx' := snd (add_clean_up poolOrder tx) in
  List.length (transactions tx') = List.length (transactions tx) + 3 /\
  List.length (filter is_move_call (transactions tx'))
    = List.length (filter is_move_call (transactions tx)) + 1 /\
  List.length (filter is_pure (inputs tx'))
    = List.length (filter is_pure (inputs tx))
      + 2 * List.length (expiredOrders poolOrder) /\
  List.length (inputs tx')
    <= List.length (inputs tx) + 2 * List.length (expiredOrders poolOrder) + 2.
Proof.
  destruct tx as [ins ts]. destruct poolOrder as [p orders].
  unfold add_clean_up, Tx.bind. cbn [pool expiredOrders].
  rewrite mapB_pure. cbn [inputs transactions].
  rewrite mapB_pure. cbn [inputs transactions].
  unfold makeMoveVec, moveCall, add. cbn [inputs transactions].
  match goal with
  | |- context [object ?id ?t] =>
      destruct (object_shape id t) as (pi & insP & -> & HP)
  end.
  cbn [inputs transactions].
  match goal with
  | |- context [object ?id ?t] =>
      destruct (object_shape id t) as (ci & insC & -> & HC)
  end.
  cbn [inputs transactions snd Tx.ret].
  rewrite !filter_app, !length_app, !filter_pure_map, !length_map.
  cbn [filter is_move_call List.length].
  destruct HP as [-> | ->], HC as [-> | ->]; cbn [filter is_pure List.length];
    repeat split; lia.
Qed.

Lemma add_clean_ups_shape (poolOrders : list PoolOrders) : forall tx,
  let tx' := snd (add_clean_ups poolOrders tx) in
  List.length (transactions tx')
    = List.length (transactions tx) + 3 * List.length poolOrders /\
  List.length (filter is_move_call (transactions tx'))
    = List.length (filter is_move_call (transactions tx)) + List.length poolOrders /\
  List.length (filter is_pure (inputs tx'))
    = List.length (filter is_pure (inputs tx)) + 2 * order_count poolOrders /\
  List.length (inputs tx')
    <= List.length (inputs tx) + 2 * order_count poolOrders
       + 2 * List.length poolOrders.
Proof.
  induction poolOrders as [|poolOrder rest IH]; intros tx.
  - cbn. repeat split; lia.
  - cbn [add_clean_ups]. unfold Tx.bind.
    pose proof (add_clean_up_shape poolOrder tx) as Hone.
    destruct (add_clean_up poolOrder tx) as [[] tx1]. cbn [snd] in Hone.
    specialize (IH tx1). cbv zeta in *.
    unfold order_count in *. cbn [map concat List.length].
    rewrite length_app.
    destruct Hone as (H1 & H2 & H3 & H4), IH as (I1 & I2 & I3 & I4).
    repeat split; lia.
Qed.

End TxMoreFacts.

(** ** Further properties of the program *)

Module Extras.
Import Rpc Spec SpecMore.
Local Open Scope Z_scope.

(** X1.  For every positive [size], [chunks data size] returns a list of
    [ceil(length / size)] chunks whose concatenation is [data]; no chunk is
    empty, none is longer than [size], and chunk [i] is the slice of [data]
    that starts at [i * size]. *)
Theorem chunks_partition {A} (data : list A) (size : nat) :
  (0 < size)%nat ->
  exists cs,
    chunks data size = Returns cs /\
    concat cs = data /\
    List.length cs = ((List.length data + size - 1) / size)%nat /\
    Forall (fun c => (1 <= List.length c <= size)%nat) cs /\
    forall i, (i < List.length cs)%nat ->
      nth i cs [] = firstn size (skipn (i * size) data).
Proof.
  intros Hs.
  destruct (ChunkFacts.chunks_spec data Hs) as (cs & Hcs & Hcat & Hlen).
  exists cs. split; [exact Hcs|]. split; [exact Hcat|].
  rewrite (ChunkFacts.chunks_chop data Hs) in Hcs. injection Hcs as <-.
  split; [apply MoreFacts.chop_length|]. split.
  - apply Forall_forall. intros c Hc.
    apply (@MoreFacts.chunk_sizes_bounds (List.length data) size _ Hs).
    rewrite <- Hlen. now apply in_map.
  - intros i Hi. rewrite MoreFacts.chop_length in Hi.
    now apply MoreFacts.chop_nth.
Qed.

Lemma chunks_partition_witness :
  exists cs,
    chunks [1; 2; 3; 4; 5]%nat 2 = Returns cs /\
    concat cs = [1; 2; 3; 4; 5]%nat /\
    List.length cs = 3%nat.
Proof.
  destruct (@chunks_partition nat [1; 2; 3; 4; 5]%nat 2 ltac:(repeat constructor))
    as (cs & H1 & H2 & H3 & _).
  exists cs. split; [exact H1|]. split; [exact H2|exact H3].
Defined.

(** X2.  Where the chunk boundaries fall does not show in what [getOrders]
    returns: resolving the concatenation of two id lists ends as resolving
    the first and then the second, with the orders of the first before those
    of the second, and with the failure of the first taking precedence. *)
Theorem getOrders_app (client : SuiClient) (ids1 ids2 : list JsId) :
  result (getOrders client (ids1 ++ ids2)) =
  match result (getOrders client ids1) with
  | Returns orders1 =>
      match result (getOrders client ids2) with
      | Returns orders2 => Returns (orders1 ++ orders2)
      | Throws e => Throws e
      | Pending => Pending
      end
  | Throws e => Throws e
  | Pending => Pending
  end.
Proof. apply MoreFacts.result_getOrders_app. Qed.

(** X3.  One object that is reported without error but has no payload, or
    whose move-object payload does not decode as a queue node, makes
    [getOrders] fail as a whole, with a [TypeError] or a [RangeError],
    whatever the other ids resolve to. *)
Theorem getOrders_poisoned (client : SuiClient) (ids : list JsId) (id : JsId) :
  In id ids ->
  SuiObjectResponse.error (object_response client id) = None ->
  (payload (object_response client id) = None \/
   exists bcsBytes,
     payload (object_response client id) = Some (moveObject bcsBytes) /\
     @BCS.de _ (BCS.codec (BCS.T_Field BCS.T_u64 (BCS.T_Node BCS.T_Order)))
       bcsBytes = None) ->
  exists e, result (getOrders client ids) = Throws e /\ builtin e.
Proof.
  intros Hin Herr Hbad.
  assert (Hx : exists e0, resolve_order (object_response client id) = Throws e0).
  { unfold resolve_order, resolve, bcs_de. rewrite Herr.
    destruct Hbad as [->|(buf & -> & ->)]; eauto. }
  destruct Hx as [e0 Hx].
  destruct (@MoreFacts.map_outcome_poisoned _ _ resolve_order
              (map (object_response client) ids) (object_response client id) e0
              MoreFacts.resolve_order_settles (in_map _ _ _ Hin) Hx) as [e He].
  exists e. assert (Hr : result (getOrders client ids) = Throws e).
  { rewrite ResolverFacts.result_getOrders. now rewrite He. }
  split; [exact Hr|]. eapply ReconstructFacts.getOrders_throws. exact Hr.
Qed.

Lemma getOrders_poisoned_witness :
  result (getOrders StubMore.client
            [Some Stub.node1; Some StubMore.cut_node; Some Stub.node3])
  = Throws RangeError.
Proof.
  destruct (@getOrders_poisoned StubMore.client
              [Some Stub.node1; Some StubMore.cut_node; Some Stub.node3]
              (Some StubMore.cut_node))
    as (e & He & _).
  - right. left. reflexivity.
  - reflexivity.
  - right. eexists. split; vm_compute; reflexivity.
  - vm_compute. reflexivity.
Defined.

(** X4.  Whenever [getOrders] returns, every input id was answered with an
    error marker, with a payload that is not a move object, or with a queue
    node that decodes, and the result is the orders of the ids of the last
    kind in input order; so there are at most as many orders as ids, and
    each order is in range (its integers fit their width, its owner has 32
    bytes). *)
Theorem getOrders_returns_inv
  (client : SuiClient) (ids : list JsId) (orders : list BCS.Order.t) :
  result (getOrders client ids) = Returns orders ->
  (exists outs, Forall2 (lookup client) ids outs /\ orders = defined outs) /\
  (List.length orders <= List.length ids)%nat /\
  Forall (@BCS.in_range _ BCS.Bcs_Order) orders.
Proof.
  intros H. apply MoreFacts.getOrders_returns_lookup in H as (outs & Hl & ->).
  split; [eauto|]. split.
  - rewrite (Forall2_length Hl). apply MoreFacts.defined_length.
  - apply Forall_forall. intros order Hin. apply MoreFacts.defined_In in Hin.
    destruct (@MoreFacts.Forall2_In_r _ _ _ _ _ _ Hl Hin) as (id & _ & Hid).
    eapply MoreFacts.lookup_in_range. exact Hid.
Qed.

Lemma getOrders_returns_inv_witness :
  result (getOrders Stub.client
            [Some Stub.node1; Some (Stub.oid 99); Some Stub.node3])
    = Returns [Stub.order1; Stub.order3] /\
  Forall (@BCS.in_range _ BCS.Bcs_Order) [Stub.order1; Stub.order3].
Proof.
  assert (H : result (getOrders Stub.client
                        [Some Stub.node1; Some (Stub.oid 99); Some Stub.node3])
              = Returns [Stub.order1; Stub.order3]) by (vm_compute; reflexivity).
  split; [exact H|]. exact (proj2 (proj2 (getOrders_returns_inv _ _ H))).
Defined.

(** X5.  For every reading of the clock, whenever [retrieveExpiredOrders]
    returns, the pool's payload was a move object whose reconstruction
    returned, and the result is the reconstructed orders, in their order,
    whose [expire_timestamp] is at most the reading: an order is returned
    if and only if it was reconstructed and has expired. *)
Theorem retrieveExpiredOrders_exact
  (client : SuiClient) (fuel : nat) (now : Z) (poolId : ObjectId)
  (expired : list BCS.Order.t) :
  Z.abs now <= 8640000000000000 ->
  result (retrieveExpiredOrders client fuel now poolId) = Returns expired ->
  exists bcsBytes orders,
    payload (object_response client (Some poolId)) = Some (moveObject bcsBytes) /\
    result (reconstruct client fuel bcsBytes) = Returns orders /\
    expired
      = filter (fun o => Z.of_N (BCS.Order.expire_timestamp o) <=? now) orders /\
    forall o, In o expired <->
              In o orders /\ Z.of_N (BCS.Order.expire_timestamp o) <= now.
Proof.
  intros Hnow H. unfold retrieveExpiredOrders in H.
  rewrite RpcFacts.result_bind in H. cbn [result getObject snd] in H.
  destruct (payload (object_response client (Some poolId))) as [[buf|]|];
    try discriminate.
  apply RpcFacts.result_bind_returns in H as (orders & Ho & Hr).
  injection Hr as <-. exists buf, orders.
  assert (Hf : filter (is_expired now) orders
               = filter (fun o => Z.of_N (BCS.Order.expire_timestamp o) <=? now)
                   orders).
  { apply filter_ext. intros o. unfold is_expired.
    apply JSFacts.le_number_of_u64. lia. }
  split; [reflexivity|]. split; [exact Ho|]. split; [exact Hf|].
  intros o. rewrite Hf, filter_In, Z.leb_le. reflexivity.
Qed.

Lemma retrieveExpiredOrders_exact_witness :
  result (retrieveExpiredOrders Stub.client 1 Stub.now Stub.pool_id)
    = Returns [Stub.order1; Stub.order3] /\
  (In Stub.order3 [Stub.order1; Stub.order3] <->
   In Stub.order3 [Stub.order1; Stub.order2; Stub.order3] /\
   Z.of_N (BCS.Order.expire_timestamp Stub.order3) <= Stub.now).
Proof.
  assert (H : result (retrieveExpiredOrders Stub.client 1 Stub.now Stub.pool_id)
              = Returns [Stub.order1; Stub.order3]) by (vm_compute; reflexivity).
  split; [exact H|].
  destruct (@retrieveExpiredOrders_exact Stub.client 1 Stub.now Stub.pool_id _
              ltac:(vm_compute; discriminate) H)
    as (buf & orders & Hp & Ho & _ & Hiff).
  assert (Hbuf : buf = @BCS.ser _ (BCS.codec BCS.T_Pool) Stub.the_pool).
  { vm_compute in Hp. injection Hp as <-. vm_compute. reflexivity. }
  subst buf. vm_compute in Ho. injection Ho as <-. exact (Hiff Stub.order3).
Defined.

(** X6.  For a pool whose two leaf listings are a single page without
    entries, [retrieveExpiredOrders] sends three requests (the pool, the ask
    leaves, the bid leaves, in this order), no multi-id lookup at all, and
    returns no order. *)
Theorem retrieveExpiredOrders_empty_book
  (client : SuiClient) (fuel : nat) (now : Z) (poolId : ObjectId)
  (bcsBytes : bytes) (p : BCS.Pool.t) :
  payload (object_response client (Some poolId)) = Some (moveObject bcsBytes) ->
  @BCS.de _ (BCS.codec BCS.T_Pool) bcsBytes = Some p ->
  Page.hasNextPage (dynamic_fields_page client (ask_leaves p) None) = false ->
  Page.data (dynamic_fields_page client (ask_leaves p) None) = [] ->
  Page.hasNextPage (dynamic_fields_page client (bid_leaves p) None) = false ->
  Page.data (dynamic_fields_page client (bid_leaves p) None) = [] ->
  retrieveExpiredOrders client fuel now poolId
  = ([GetObject poolId;
      GetDynamicFields (ask_leaves p) None;
      GetDynamicFields (bid_leaves p) None],
     Returns []).
Proof.
  intros Hpayload Hde Ha Hadata Hb Hbdata.
  unfold retrieveExpiredOrders, getObject. cbn [bind]. rewrite Hpayload.
  unfold reconstruct, bcs_de. rewrite Hde. cbn [lift bind app].
  fold (ask_leaves p). fold (bid_leaves p).
  rewrite (MoreFacts.getAllDFPages_single client fuel (ask_leaves p) Ha), Hadata.
  cbn [filter bind].
  rewrite (MoreFacts.getAllDFPages_single client fuel (bid_leaves p) Hb), Hbdata.
  reflexivity.
Qed.

Lemma retrieveExpiredOrders_empty_book_witness :
  retrieveExpiredOrders StubMore.client 0 Stub.now StubMore.bare_pool_id
  = ([GetObject StubMore.bare_pool_id;
      GetDynamicFields (Stub.oid 8) None;
      GetDynamicFields (Stub.oid 7) None],
     Returns []).
Proof.
  apply (@retrieveExpiredOrders_empty_book StubMore.client 0 Stub.now
           StubMore.bare_pool_id
           (@BCS.ser _ (BCS.codec BCS.T_Pool) StubMore.bare_pool)
           StubMore.bare_pool);
    vm_compute; reflexivity.
Defined.

(** X7.  A pool whose response carries no payload (as when the pool object
    is gone: the error marker of the response is not consulted) makes
    [retrieveExpiredOrders] fail with a [TypeError], and a pool whose payload
    is a package makes it fail with [Error('Invalid pool data type')]; in
    both cases the lookup of the pool is the only request sent. *)
Theorem retrieveExpiredOrders_fails_early
  (client : SuiClient) (fuel : nat) (now : Z) (poolId : ObjectId) :
  (payload (object_response client (Some poolId)) = None ->
   retrieveExpiredOrders client fuel now poolId
   = ([GetObject poolId], Throws TypeError)) /\
  (payload (object_response client (Some poolId)) = Some package ->
   retrieveExpiredOrders client fuel now poolId
   = ([GetObject poolId], Throws (Error "Invalid pool data type"))) /\
  (SuiObjectResponse.data (object_response client (Some poolId)) = None ->
   result (retrieveExpiredOrders client fuel now poolId) = Throws TypeError).
Proof.
  unfold retrieveExpiredOrders, getObject. cbn [bind].
  split; [|split].
  - now intros ->.
  - now intros ->.
  - unfold payload. now intros ->.
Qed.

(** X8.  The reconstruction is complete: when the pool decodes, the leaf
    listings of its two sides return, every listed leaf is either gone or
    decodes to a tick level, the queue listing of every such level returns,
    and every listed queue node is either gone or decodes to an order, then
    [reconstruct] returns the orders of all these nodes, the bid levels
    before the ask levels, each queue in listing order. *)
Theorem reconstruct_complete
  (client : SuiClient) (fuel : nat) (bcsBytes : bytes) (p : BCS.Pool.t)
  (asks bids : list DynamicFieldInfo.t)
  (levels : list (option BCS.TickLevel.t))
  (queues : list (list DynamicFieldInfo.t))
  (outs : list (option BCS.Order.t)) :
  @BCS.de _ (BCS.codec BCS.T_Pool) bcsBytes = Some p ->
  result (getAllDFPages client fuel (ask_leaves p)) = Returns asks ->
  result (getAllDFPages client fuel (bid_leaves p)) = Returns bids ->
  Forall2 (leaf_lookup client)
    (map DynamicFieldInfo.objectId (bids ++ asks)) levels ->
  Forall2 (fun level nodes =>
             result (getAllDFPages client fuel (queue_of level)) = Returns nodes)
          (defined levels) queues ->
  Forall2 (lookup client)
    (map DynamicFieldInfo.objectId (concat queues)) outs ->
  result (reconstruct client fuel bcsBytes) = Returns (defined outs).
Proof. apply MoreFacts.reconstruct_returns_all. Qed.

Lemma reconstruct_complete_witness :
  result (reconstruct Stub.client 1 (@BCS.ser _ (BCS.codec BCS.T_Pool) Stub.the_pool))
  = Returns [Stub.order1; Stub.order2; Stub.order3].
Proof.
  apply (@reconstruct_complete Stub.client 1
           (@BCS.ser _ (BCS.codec BCS.T_Pool) Stub.the_pool) Stub.the_pool
           [Stub.entry Stub.ask_leaf] [Stub.entry Stub.bid_leaf]
           [Some (Stub.level 500 Stub.bid_queue 2);
            Some (Stub.level 510 Stub.ask_queue 1)]
           [[Stub.entry Stub.node1; Stub.entry Stub.node2];
            [Stub.entry Stub.node3]]
           [Some Stub.order1; Some Stub.order2; Some Stub.order3]).
  - vm_compute. reflexivity.
  - vm_compute. reflexivity.
  - vm_compute. reflexivity.
  - constructor; [|constructor; [|constructor]].
    + apply (@leaf_level Stub.client (Some Stub.bid_leaf)
               (Stub.leaf_bytes Stub.bid_leaf (Stub.level 500 Stub.bid_queue 2))
               (BCS.Field.mk Stub.bid_leaf 0%N
                  (BCS.Leaf.mk 500%N (Stub.level 500 Stub.bid_queue 2) 0%N)));
        vm_compute; reflexivity.
    + apply (@leaf_level Stub.client (Some Stub.ask_leaf)
               (Stub.leaf_bytes Stub.ask_leaf (Stub.level 510 Stub.ask_queue 1))
               (BCS.Field.mk Stub.ask_leaf 0%N
                  (BCS.Leaf.mk 510%N (Stub.level 510 Stub.ask_queue 1) 0%N)));
        vm_compute; reflexivity.
  - constructor; [vm_compute; reflexivity|].
    constructor; [vm_compute; reflexivity|constructor].
  - constructor; [|constructor; [|constructor; [|constructor]]].
    + apply (@lookup_order Stub.client (Some Stub.node1)
               (Stub.node_bytes Stub.node1 Stub.order1)
               (BCS.Field.mk Stub.node1 1%N (BCS.Node.mk [] [] Stub.order1)));
        vm_compute; reflexivity.
    + apply (@lookup_order Stub.client (Some Stub.node2)
               (Stub.node_bytes Stub.node2 Stub.order2)
               (BCS.Field.mk Stub.node2 2%N (BCS.Node.mk [] [] Stub.order2)));
        vm_compute; reflexivity.
    + apply (@lookup_order Stub.client (Some Stub.node3)
               (Stub.node_bytes Stub.node3 Stub.order3)
               (BCS.Field.mk Stub.node3 3%N (BCS.Node.mk [] [] Stub.order3)));
        vm_compute; reflexivity.
Defined.

(** X9.  [main] sends the dry run only after every read has succeeded: the
    requests of a run are reads of the ledger, followed by exactly one dry
    run, of the block that is returned, when the run returns, and by nothing
    when it does not. *)
Theorem main_dry_run_last (client : SuiClient) (fuel : nat) (now : Z) :
  exists reads,
    Forall is_read reads /\
    requests (main client fuel now)
    = reads ++ match result (main client fuel now) with
               | Returns r => [DevInspectTransactionBlock (tx r) sender]
               | _ => []
               end.
Proof.
  exists (requests (gather client fuel now)). split.
  - apply MoreFacts.gather_reads.
  - apply MoreFacts.main_requests.
Qed.

(** X10.  Whenever [main] returns, the batch holds exactly one clean-up
    instruction per discovered pool, in the order of discovery, each built
    from that pool's creation event and from what [retrieveExpiredOrders]
    returned for it (also when that is no order at all). *)
Theorem main_one_instruction_per_pool
  (client : SuiClient) (fuel : nat) (now : Z) (r : CleanUp) :
  result (main client fuel now) = Returns r ->
  exists pools pairs,
    result (retrieveAllPools client fuel) = Returns pools /\
    Forall2 (fun created pair =>
               pool pair = created /\
               result (retrieveExpiredOrders client fuel now
                         (BCS.PoolCreated.pool_id created))
               = Returns (expiredOrders pair))
            pools pairs /\
    Tx.move_calls (tx r) = map instruction pairs /\
    List.length (Tx.move_calls (tx r)) = List.length pools.
Proof.
  rewrite MoreFacts.main_gather. intros H.
  apply RpcFacts.result_bind_returns in H as (pairs & Hg & Hr).
  destruct (MoreFacts.gather_returns client fuel now Hg) as (pools & Hp & Hpairs).
  exists pools, pairs. split; [exact Hp|]. split; [exact Hpairs|].
  unfold createCleanUpTransaction in Hr. cbn in Hr. injection Hr as <-.
  cbn [tx]. rewrite TxFacts.move_calls_add_clean_ups. split; [reflexivity|].
  rewrite length_map. symmetry. exact (Forall2_length Hpairs).
Qed.

Lemma main_one_instruction_per_pool_witness :
  exists r,
    result (main Stub.client 1 Stub.now) = Returns r /\
    List.length (Tx.move_calls (tx r)) = 1%nat.
Proof.
  eexists. split; [vm_compute; reflexivity|].
  match goal with
  | |- List.length (Tx.move_calls (tx ?r)) = _ =>
      destruct (@main_one_instruction_per_pool Stub.client 1 Stub.now r)
        as (pools & pairs & Hp & _ & _ & ->); [vm_compute; reflexivity|]
  end.
  vm_compute in Hp. injection Hp as <-. reflexivity.
Defined.

(** X11.  One pool whose [retrieveExpiredOrders] call fails makes the whole
    run of [main] fail, whatever the other pools hold, and no dry run is
    sent. *)
Theorem main_aborts_on_failing_pool
  (client : SuiClient) (fuel : nat) (now : Z)
  (pools : list BCS.PoolCreated.t) (created : BCS.PoolCreated.t) (e0 : exn) :
  result (retrieveAllPools client fuel) = Returns pools ->
  In created pools ->
  result (retrieveExpiredOrders client fuel now (BCS.PoolCreated.pool_id created))
    = Throws e0 ->
  (exists e, result (main client fuel now) = Throws e) /\
  Forall is_read (requests (main client fuel now)).
Proof.
  intros Hpools Hin Hthrow.
  destruct (MoreFacts.gather_poisoned client fuel now created Hpools Hin Hthrow)
    as [e He].
  assert (Hm : result (main client fuel now) = Throws e).
  { rewrite MoreFacts.main_gather, RpcFacts.result_bind. now rewrite He. }
  split; [eauto|].
  rewrite MoreFacts.main_requests, Hm, app_nil_r.
  apply MoreFacts.gather_reads.
Qed.

Lemma main_aborts_on_failing_pool_witness :
  result (main StubMore.client 1 Stub.now)
    = Throws (Error "Invalid pool data type") /\
  Forall is_read (requests (main StubMore.client 1 Stub.now)).
Proof.
  split; [vm_compute; reflexivity|].
  apply (@main_aborts_on_failing_pool StubMore.client 1 Stub.now
           [Stub.created; StubMore.packaged] StubMore.packaged
           (Error "Invalid pool data type")).
  - vm_compute. reflexivity.
  - right. left. reflexivity.
  - vm_compute. reflexivity.
Defined.

(** X12.  A first page flagged as having a successor but carrying no cursor
    makes the page loop ask for the first page again and again: whatever
    the bound on follow-up requests, [getAllDFPages] has not returned by it,
    all its requests being the request without cursor. *)
Theorem getAllDFPages_stuck
  (client : SuiClient) (fuel : nat) (parentId : ObjectId) :
  Page.hasNextPage (dynamic_fields_page client parentId None) = true ->
  Page.nextCursor (dynamic_fields_page client parentId None) = None ->
  getAllDFPages client fuel parentId
  = (repeat (GetDynamicFields parentId None) (S fuel), Pending).
Proof. apply MoreFacts.getAllDFPages_stuck_loop. Qed.

Lemma getAllDFPages_stuck_witness :
  getAllDFPages StubMore.stuck_client 3 Stub.bid_queue
  = (repeat (GetDynamicFields Stub.bid_queue None) 4, Pending).
Proof.
  apply (@getAllDFPages_stuck StubMore.stuck_client 3 Stub.bid_queue);
    reflexivity.
Defined.

(** X13.  Pool discovery reads the three registered fields of a creation
    event and ignores what follows them: when the events of a finite source
    each start with the encoding of an in-range [PoolCreated] record,
    [retrieveAllPools] returns these records in event order, whatever bytes
    come after them. *)
Theorem retrieveAllPools_ignores_trailing_fields
  (client : SuiClient) (fuel : nat)
  (ps : list (Page.t EventId SuiEvent.t)) (pools : list BCS.PoolCreated.t) :
  serves (events_page client PoolCreated_type) None ps ->
  (List.length ps <= S fuel)%nat ->
  Forall2 (fun event v =>
             @BCS.in_range _ (BCS.codec BCS.T_PoolCreated) v /\
             exists more,
               SuiEvent.bcs event
               = @BCS.ser _ (BCS.codec BCS.T_PoolCreated) v ++ more)
          (items ps) pools ->
  result (retrieveAllPools client fuel) = Returns pools.
Proof.
  intros Hps Hlen Hevents.
  rewrite (PageFacts.retrieveAllPools_serves client Hps Hlen).
  exact (MoreFacts.events_decode Hevents).
Qed.

Lemma retrieveAllPools_ignores_trailing_fields_witness :
  result (retrieveAllPools StubMore.client 0)
  = Returns [Stub.created; StubMore.packaged].
Proof.
  apply (@retrieveAllPools_ignores_trailing_fields StubMore.client 0
           [events_page StubMore.client PoolCreated_type None]).
  - apply serves_last. reflexivity.
  - cbn. lia.
  - constructor; [|constructor; [|constructor]].
    + split; [cbn; repeat split; reflexivity|].
      exists [x01; x02; x03]. reflexivity.
    + split; [cbn; repeat split; reflexivity|].
      exists (BCS.le_bytes 8 2500000). reflexivity.
Defined.

(** X14.  Whatever buffer it is given, a reader that succeeds hands out a
    value that is in range (integers within their width, addresses of 32
    bytes, for every element and field) and leaves the buffer less the
    prefix it consumed; so every record the program decodes is in range. *)
Theorem bcs_read_sound
  (t : BCS.type_name) (buf : bytes) (v : BCS.value_of t) (rest : bytes) :
  @BCS.read _ (BCS.codec t) buf = Some (v, rest) ->
  @BCS.in_range _ (BCS.codec t) v /\
  (exists used, buf = used ++ rest) /\
  bcs_de t buf = Returns v.
Proof.
  intros H. destruct (BCSMoreFacts.Sound_codec t _ H) as [Hv Hused].
  split; [exact Hv|]. split; [exact Hused|].
  unfold bcs_de, BCS.de. now rewrite H.
Qed.

Lemma bcs_read_sound_witness :
  @BCS.in_range _ (BCS.codec BCS.T_Order) Stub.order2 /\
  bcs_de BCS.T_Order (@BCS.ser _ (BCS.codec BCS.T_Order) Stub.order2 ++ [x07])
  = Returns Stub.order2.
Proof.
  destruct (@bcs_read_sound BCS.T_Order
              (@BCS.ser _ (BCS.codec BCS.T_Order) Stub.order2 ++ [x07])
              Stub.order2 [x07])
    as (Hv & _ & Hde); [vm_compute; reflexivity|].
  split; [exact Hv|exact Hde].
Defined.

(** X15.  Decoding the fixed-width structs fails exactly on the buffers that
    are too short, and validates nothing else: an Order needs 82 bytes, a
    Table 40, a CritbitTree 120, a Pool 360; so the decoding of a pool
    payload by [retrieveExpiredOrders] raises its [RangeError] exactly when
    the payload has fewer than 360 bytes. *)
Theorem bcs_de_underrun (buf : bytes) :
  (bcs_de BCS.T_Order buf = Throws RangeError <-> (List.length buf < 82)%nat) /\
  (bcs_de BCS.T_Table buf = Throws RangeError <-> (List.length buf < 40)%nat) /\
  (bcs_de BCS.T_CritbitTree buf = Throws RangeError
     <-> (List.length buf < 120)%nat) /\
  (bcs_de BCS.T_Pool buf = Throws RangeError <-> (List.length buf < 360)%nat).
Proof.
  assert (H : forall (t : BCS.type_name) n,
             BCSMore.Fixed (BCS.codec t) n ->
             bcs_de t buf = Throws RangeError <-> (List.length buf < n)%nat).
  { intros t n HF. rewrite <- (BCSMoreFacts.Fixed_de HF buf). unfold bcs_de.
    destruct (BCS.de buf); split; congruence. }
  split; [|split; [|split]].
  - apply H. exact BCSMoreFacts.Fixed_Order.
  - apply H. exact BCSMoreFacts.Fixed_Table.
  - apply H. exact BCSMoreFacts.Fixed_CritbitTree.
  - apply H. exact BCSMoreFacts.Fixed_Pool.
Qed.

(** X16.  The block [createCleanUpTransaction] builds grows with its input
    and with nothing else: three commands per pair (of which one move call),
    two pure inputs per expired order, and at most two object inputs per
    pair. *)
Theorem createCleanUpTransaction_block_size
  (client : SuiClient) (poolOrders : list PoolOrders) :
  exists r,
    result (createCleanUpTransaction client poolOrders) = Returns r /\
    List.length (Tx.transactions (tx r)) = (3 * List.length poolOrders)%nat /\
    List.length (filter is_move_call (Tx.transactions (tx r)))
      = List.length poolOrders /\
    List.length (filter is_pure (Tx.inputs (tx r)))
      = (2 * order_count poolOrders)%nat /\
    (List.length (Tx.inputs (tx r))
       <= 2 * order_count poolOrders + 2 * List.length poolOrders)%nat.
Proof.
  eexists. split; [reflexivity|]. cbn [tx].
  exact (TxMoreFacts.add_clean_ups_shape poolOrders Tx.empty).
Qed.

(** X17.  When discovery finds no pool, [main] still sends the dry run, of
    a block without inputs and commands, and returns that block with the
    rebate computed from the dry run's cost summary. *)
Theorem main_no_pools (client : SuiClient) (fuel : nat) (now : Z) :
  result (retrieveAllPools client fuel) = Returns [] ->
  main client fuel now
  = (requests (retrieveAllPools client fuel)
       ++ [DevInspectTransactionBlock Tx.empty sender],
     Returns (mkCleanUp
                (rebate_of (gasUsed (effects (dev_inspect client Tx.empty sender))))
                Tx.empty)).
Proof.
  intros H. unfold main.
  destruct (retrieveAllPools client fuel) as [log o]. cbn in H. subst o.
  reflexivity.
Qed.

Lemma main_no_pools_witness :
  main Stub.paged_client 0 Stub.now
  = ([QueryEvents PoolCreated_type None;
      DevInspectTransactionBlock Tx.empty sender],
     Returns (mkCleanUp (JS.Num 0) Tx.empty)).
Proof.
  rewrite (@main_no_pools Stub.paged_client 0 Stub.now); reflexivity.
Defined.

End Extras.
